(** * Dasher: beat detection, beat playback scheduling and obstacle spacing

    A shallow embedding of [src/core/audio.js] (class [AudioManager]),
    [src/core/level.js] (class [LevelGenerator]), [Game.handleBeat] of
    [src/core/game.js], the beat callback that joins the two, and
    [src/core/player.js] (class [Player]).

    JavaScript numbers are idealised as exact rationals ([Q]): there is no
    rounding, no [NaN] and no infinity.  Every comparison the source makes is
    kept as the boolean test it is, in the same argument order. *)

From Stdlib Require Import QArith Qabs Lqa ZArith List Bool Lia Permutation.
Import ListNotations.
Open Scope Q_scope.

(** ** JavaScript number operators *)

Module Js.

(** [a >= b] *)
Definition geb (a b : Q) : bool := Qle_bool b a.
(** [a > b] *)
Definition gtb (a b : Q) : bool := negb (Qle_bool a b).
(** [a < b] *)
Definition ltb (a b : Q) : bool := negb (Qle_bool b a).
(** [Math.min(a, b)] *)
Definition min (a b : Q) : Q := if Qle_bool a b then a else b.
(** [Math.max(a, b)] *)
Definition max (a b : Q) : Q := if Qle_bool a b then b else a.
(** [Math.abs(a)] *)
Definition abs (a : Q) : Q := Qabs a.
(** [array.length] as a number *)
Definition len {A : Type} (l : list A) : Q := inject_Z (Z.of_nat (length l)).
(** [array.reduce((a, b) => a + b, 0)] *)
Definition sum (l : list Q) : Q := fold_left Qplus l 0.
(** [array.slice(i, j)] *)
Definition slice {A : Type} (i j : nat) (l : list A) : list A :=
  firstn (j - i) (skipn i l).
(** [array.push(x)] *)
Definition push {A : Type} (l : list A) (x : A) : list A := l ++ [x].
(** [array.shift()], the array that is left *)
Definition shift {A : Type} (l : list A) : list A := tl l.

End Js.

(** ** Data of [AudioManager] *)

(** [this.beatParams] *)
Record BeatParams : Type := mkBeatParams {
  minBeatInterval : Q;
  energyThreshold : Q;
  dynamicRange : Q;
  beatDecay : Q;
  historySize : Q;
  minBeatIntensity : Q
}.

(** The constants of the constructor. *)
Definition defaultBeatParams : BeatParams :=
  {| minBeatInterval := 500;
     energyThreshold := 240;
     dynamicRange := 13 # 10;
     beatDecay := 98 # 100;
     historySize := 30;
     minBeatIntensity := 70 # 100 |}.

(** An entry of [this.beatMap]: [{ time, intensity }]. *)
Record Beat : Type := mkBeat {
  time : Q;
  intensity : Q
}.

(** The audio element the manager plays: its position in seconds and
    whether it is paused. *)
Record AudioElement : Type := mkAudioElement {
  currentTime : Q;
  paused : bool
}.

(** A registered beat callback, by identity. *)
Definition Callback : Type := nat.

(** The fields of an [AudioManager] instance.  [debugDiv] says whether the
    constructor created the debug panel (it does so on localhost only);
    [audioUrl] says whether [setAudioTrack] gave a track. *)
Record AudioManager : Type := mkAudioManager {
  audioUrl : bool;
  audioElement : option AudioElement;
  isInitialized : bool;
  isPlaying : bool;
  beatMap : list Beat;
  isAnalyzed : bool;
  onBeatDetected : option Callback;
  beatParams : BeatParams;
  beatHistory : list Q;
  dynamicThreshold : Q;
  debugDiv : bool
}.

(** [new AudioManager()] *)
Definition newAudioManager (localhost : bool) : AudioManager :=
  {| audioUrl := false;
     audioElement := None;
     isInitialized := false;
     isPlaying := false;
     beatMap := [];
     isAnalyzed := false;
     onBeatDetected := None;
     beatParams := defaultBeatParams;
     beatHistory := [];
     dynamicThreshold := 0;
     debugDiv := localhost |}.

(** [setAudioTrack(url)] *)
Definition setAudioTrack (m : AudioManager) : AudioManager :=
  {| audioUrl := true;
     audioElement := audioElement m;
     isInitialized := false;
     isPlaying := isPlaying m;
     beatMap := [];
     isAnalyzed := false;
     onBeatDetected := onBeatDetected m;
     beatParams := beatParams m;
     beatHistory := beatHistory m;
     dynamicThreshold := dynamicThreshold m;
     debugDiv := debugDiv m |}.

(** ** The analysis frame: [analyze] inside [analyzeFullTrack] *)

(** One animation frame of the analysis: the position of the analysis audio
    and the byte magnitudes [getByteFrequencyData] wrote into [dataArray]. *)
Record Frame : Type := mkFrame {
  frameTime : Q;
  dataArray : list Z
}.

(** What the detector reads of a frame: its time and combined energy. *)
Record Sample : Type := mkSample {
  sampleTime : Q;
  totalEnergy : Q
}.

(** Mean of a band, [range.reduce((a, b) => a + b, 0) / range.length]. *)
Definition bandMean (range : list Z) : Q :=
  Js.sum (map inject_Z range) / Js.len range.

(** Lines 104-114: the weighted energy of the three low bands. *)
Definition frameEnergy (data : list Z) : Q :=
  let subBassRange := Js.slice 0 4 data in
  let bassRange := Js.slice 4 8 data in
  let lowMidRange := Js.slice 8 12 data in
  let subBassEnergy := bandMean subBassRange * (12 # 10) in
  let bassEnergy := bandMean bassRange in
  let lowMidEnergy := bandMean lowMidRange * (8 # 10) in
  subBassEnergy * (5 # 10) + bassEnergy * (3 # 10) + lowMidEnergy * (2 # 10).

Definition sampleOfFrame (f : Frame) : Sample :=
  {| sampleTime := frameTime f; totalEnergy := frameEnergy (dataArray f) |}.

(** The variables of one analysis run: the closure's [lastBeatTime],
    [lastEnergy] and [energyChange], and the manager fields the frame
    handler writes. *)
Record Detector : Type := mkDetector {
  lastBeatTime : Q;
  lastEnergy : Q;
  energyChange : Q;
  dBeatHistory : list Q;
  dDynamicThreshold : Q;
  dBeatMap : list Beat
}.

(** The state a run starts from (lines 39 and 87-94). *)
Definition freshDetector : Detector :=
  {| lastBeatTime := 0;
     lastEnergy := 0;
     energyChange := 0;
     dBeatHistory := [];
     dDynamicThreshold := 0;
     dBeatMap := [] |}.

(** A frame handler either returns, and the next frame is requested, or
    throws; both leave the writes made so far. *)
Inductive Step : Type :=
| Returned (d : Detector)
| Threw (d : Detector).

Definition stateOf (s : Step) : Detector :=
  match s with Returned d => d | Threw d => d end.

(** [this.beatParams.minBeatInterval / 1000] *)
Definition minBeatIntervalSec (p : BeatParams) : Q := minBeatInterval p / 1000.

(** Lines 142-147. *)
Definition beatIntensity (p : BeatParams) (energy change : Q) : Q :=
  let energyIntensity := Js.min (energy / 255) 1 in
  let changeIntensity := Js.min (Js.max change 0 / 100) 1 in
  Js.max (Js.min ((energyIntensity + changeIntensity) / 2) 1)
         (minBeatIntensity p).

(** Lines 120-124. *)
Definition updateHistory (p : BeatParams) (h : list Q) (energy : Q) : list Q :=
  let h1 := Js.push h energy in
  if Js.gtb (Js.len h1) (historySize p) then Js.shift h1 else h1.

(** Lines 127-132. *)
Definition updateThreshold (p : BeatParams) (h : list Q) (old : Q) : Q :=
  if Js.geb (Js.len h) (Js.min 10 (historySize p)) then
    let averageEnergy := Js.sum h / Js.len h in
    (averageEnergy * dynamicRange p) * beatDecay p
  else old.

(** Lines 138-139: the candidate-beat test. *)
Definition beatCandidate (p : BeatParams) (energy change sinceLast : Q) : bool :=
  (Js.gtb energy (energyThreshold p) || Js.gtb change (energyThreshold p / 2))
  && Js.geb sinceLast (minBeatIntervalSec p).

(** Lines 116-163 for one sample.  With no debug panel the write to
    [this.debugDiv.querySelector('#beatCount')] at line 160 throws, after the
    beat was pushed and [lastBeatTime] set. *)
Definition detectorStep (p : BeatParams) (debug : bool) (d : Detector)
    (s : Sample) : Step :=
  let change := totalEnergy s - lastEnergy d in
  let history := updateHistory p (dBeatHistory d) (totalEnergy s) in
  let threshold := updateThreshold p history (dDynamicThreshold d) in
  let timeSinceLastBeat := sampleTime s - lastBeatTime d in
  let quiet :=
    {| lastBeatTime := lastBeatTime d;
       lastEnergy := totalEnergy s;
       energyChange := change;
       dBeatHistory := history;
       dDynamicThreshold := threshold;
       dBeatMap := dBeatMap d |} in
  if beatCandidate p (totalEnergy s) change timeSinceLastBeat then
    let i := beatIntensity p (totalEnergy s) change in
    if Js.geb i (minBeatIntensity p) then
      let hit :=
        {| lastBeatTime := sampleTime s;
           lastEnergy := totalEnergy s;
           energyChange := change;
           dBeatHistory := history;
           dDynamicThreshold := threshold;
           dBeatMap := Js.push (dBeatMap d) (mkBeat (sampleTime s) i) |} in
      if debug then Returned hit else Threw hit
    else Returned quiet
  else Returned quiet.

(** The frames of a run in order; a frame that throws ends the run, since
    the next frame is requested at the end of the handler. *)
Fixpoint runDetector (p : BeatParams) (debug : bool) (d : Detector)
    (samples : list Sample) : Step :=
  match samples with
  | [] => Returned d
  | s :: rest =>
      match detectorStep p debug d s with
      | Returned d' => runDetector p debug d' rest
      | Threw d' => Threw d'
      end
  end.

(** ** Post-processing (lines 180-188) *)

(** [array.sort((a, b) => a.time - b.time)]: a stable sort; [a] goes before
    [b] unless the comparator is positive. *)
Fixpoint insertBeat (a : Beat) (l : list Beat) : list Beat :=
  match l with
  | [] => [a]
  | b :: rest =>
      if Js.gtb (time a - time b) 0 then b :: insertBeat a rest
      else a :: b :: rest
  end.

Definition sortByTime (l : list Beat) : list Beat :=
  fold_right insertBeat [] l.

(** The callback of [filter] at an index above 0, [prev] being
    [array[index - 1]] of the array that is filtered. *)
Definition keepBeat (p : BeatParams) (prev beat : Beat) : bool :=
  let timeDiff := time beat - time prev in
  Js.geb timeDiff (minBeatIntervalSec p)
  || Js.gtb (intensity beat) (intensity prev * (12 # 10)).

(** [filter] from index 1 on: each element is tested against its
    predecessor in the unfiltered array, kept or not. *)
Fixpoint filterAfter (p : BeatParams) (prev : Beat) (l : list Beat)
    : list Beat :=
  match l with
  | [] => []
  | b :: rest =>
      if keepBeat p prev b then b :: filterAfter p b rest
      else filterAfter p b rest
  end.

Definition filterBeats (p : BeatParams) (l : list Beat) : list Beat :=
  match l with
  | [] => []
  | b :: rest => b :: filterAfter p b rest
  end.

Definition postProcess (p : BeatParams) (l : list Beat) : list Beat :=
  filterBeats p (sortByTime l).

(** ** Field writes of [AudioManager] *)

Definition setAudioElement (a : option AudioElement) (m : AudioManager) :=
  mkAudioManager (audioUrl m) a (isInitialized m) (isPlaying m) (beatMap m)
    (isAnalyzed m) (onBeatDetected m) (beatParams m) (beatHistory m)
    (dynamicThreshold m) (debugDiv m).

Definition setIsInitialized (b : bool) (m : AudioManager) :=
  mkAudioManager (audioUrl m) (audioElement m) b (isPlaying m) (beatMap m)
    (isAnalyzed m) (onBeatDetected m) (beatParams m) (beatHistory m)
    (dynamicThreshold m) (debugDiv m).

Definition setIsPlaying (b : bool) (m : AudioManager) :=
  mkAudioManager (audioUrl m) (audioElement m) (isInitialized m) b (beatMap m)
    (isAnalyzed m) (onBeatDetected m) (beatParams m) (beatHistory m)
    (dynamicThreshold m) (debugDiv m).

Definition setBeatMap (l : list Beat) (m : AudioManager) :=
  mkAudioManager (audioUrl m) (audioElement m) (isInitialized m) (isPlaying m)
    l (isAnalyzed m) (onBeatDetected m) (beatParams m) (beatHistory m)
    (dynamicThreshold m) (debugDiv m).

Definition setIsAnalyzed (b : bool) (m : AudioManager) :=
  mkAudioManager (audioUrl m) (audioElement m) (isInitialized m) (isPlaying m)
    (beatMap m) b (onBeatDetected m) (beatParams m) (beatHistory m)
    (dynamicThreshold m) (debugDiv m).

Definition setOnBeatDetected (c : option Callback) (m : AudioManager) :=
  mkAudioManager (audioUrl m) (audioElement m) (isInitialized m) (isPlaying m)
    (beatMap m) (isAnalyzed m) c (beatParams m) (beatHistory m)
    (dynamicThreshold m) (debugDiv m).

Definition setBeatHistory (h : list Q) (m : AudioManager) :=
  mkAudioManager (audioUrl m) (audioElement m) (isInitialized m) (isPlaying m)
    (beatMap m) (isAnalyzed m) (onBeatDetected m) (beatParams m) h
    (dynamicThreshold m) (debugDiv m).

Definition setDynamicThreshold (t : Q) (m : AudioManager) :=
  mkAudioManager (audioUrl m) (audioElement m) (isInitialized m) (isPlaying m)
    (beatMap m) (isAnalyzed m) (onBeatDetected m) (beatParams m)
    (beatHistory m) t (debugDiv m).

(** ** Asynchronous calls and the browser they wait for *)

(** How the promise of an [async] method settles, if it does. *)
Inductive Outcome (A : Type) : Type :=
| Fulfilled (a : A)
| Rejected
| Pending.
Arguments Fulfilled {A} a.
Arguments Rejected {A}.
Arguments Pending {A}.

(** The analysis audio of one [analyzeFullTrack] call: it fails to load,
    its [play()] is refused, or it plays; then [frames] are the animation
    frames handled while it is neither ended nor paused, and [ended] says
    whether the frame after them sees it ended (or only paused). *)
Inductive AnalysisAudio : Type :=
| AudioError
| PlayRefused
| Plays (frames : list Frame) (ended : bool).

(** What the browser does during one call of an [async] method. *)
Record Browser : Type := mkBrowser {
  trackLoads : bool;        (* 'canplaythrough' rather than 'error' *)
  contextResumes : bool;    (* the context runs, or [resume()] fulfils *)
  playStarts : bool;        (* [audioElement.play()] fulfils *)
  analysisAudio : AnalysisAudio
}.

(** [initializeWithFile(url)] followed by the rest of [initialize()]. *)
Definition initialize (env : Browser) (m : AudioManager)
    : Outcome unit * AudioManager :=
  if isInitialized m then (Fulfilled tt, m)
  else if audioUrl m then
    let m1 := setAudioElement (Some (mkAudioElement 0 true)) m in
    if trackLoads env then (Fulfilled tt, setIsInitialized true m1)
    else (Rejected, m1)
  else (Fulfilled tt, setIsInitialized true m).

(** The manager fields a run has written. *)
Definition writeBack (d : Detector) (m : AudioManager) : AudioManager :=
  setDynamicThreshold (dDynamicThreshold d)
    (setBeatHistory (dBeatHistory d) (setBeatMap (dBeatMap d) m)).

(** The body of [analyzeFullTrack] after initialization. *)
Definition analyzeInitialized (env : Browser) (m : AudioManager)
    : Outcome (list Beat) * AudioManager :=
  let m1 := setBeatMap [] m in
  match audioElement m1 with
  | None => (Rejected, m1)          (* [this.audioElement.duration] throws *)
  | Some _ =>
      let m2 := setDynamicThreshold 0 (setBeatHistory [] m1) in
      match analysisAudio env with
      | AudioError => (Rejected, m2)
      | PlayRefused => (Rejected, m2)
      | Plays frames ended =>
          match runDetector (beatParams m2) (debugDiv m2) freshDetector
                  (map sampleOfFrame frames) with
          | Threw d => (Pending, writeBack d m2)
          | Returned d =>
              if ended then
                let final := postProcess (beatParams m2) (dBeatMap d) in
                (Fulfilled final,
                 setIsAnalyzed true (setBeatMap final (writeBack d m2)))
              else (Pending, writeBack d m2)
          end
      end
  end.

(** [analyzeFullTrack()] *)
Definition analyzeFullTrack (env : Browser) (m : AudioManager)
    : Outcome (list Beat) * AudioManager :=
  match initialize env m with
  | (Fulfilled _, m1) => analyzeInitialized env m1
  | (_, m1) => (Rejected, m1)
  end.

(** ** Timers and playback *)

(** Which method armed a timer: the two closures differ. *)
Inductive Origin : Type := ByStart | ByResume.

(** A pending [setTimeout]: when it is due on the timer clock (ms), and the
    closure it runs, given by its origin and the beat it captured. *)
Record Timer : Type := mkTimer {
  due : Q;
  origin : Origin;
  timerBeat : Beat
}.

(** One invocation of the beat callback: the function, the arguments it was
    given, and the timer whose closure made the call. *)
Record Invocation : Type := mkInvocation {
  callee : Callback;
  args : list Q;
  source : Timer
}.

(** The page: the manager, the timer clock (ms), the pending timers in the
    order they will fire, and the callback invocations so far. *)
Record World : Type := mkWorld {
  manager : AudioManager;
  clock : Q;
  timers : list Timer;
  calls : list Invocation
}.

Definition setManager (m : AudioManager) (w : World) : World :=
  mkWorld m (clock w) (timers w) (calls w).

(** The timer queue: ordered by due time, timers due together in the order
    they were armed. *)
Fixpoint enqueue (t : Timer) (q : list Timer) : list Timer :=
  match q with
  | [] => [t]
  | u :: rest =>
      if Js.ltb (due t) (due u) then t :: u :: rest
      else u :: enqueue t rest
  end.

(** [setTimeout(closure, delay)] *)
Definition setTimeout (o : Origin) (b : Beat) (delay : Q) (w : World) : World :=
  mkWorld (manager w) (clock w)
    (enqueue (mkTimer (clock w + delay) o b) (timers w)) (calls w).

(** The argument list each closure passes: line 293 and line 339. *)
Definition closureArgs (o : Origin) (b : Beat) : list Q :=
  match o with
  | ByStart => [intensity b; time b]
  | ByResume => [intensity b]
  end.

(** The body of a timer closure (lines 291-294 and 338-340). *)
Definition fire (t : Timer) (w : World) : World :=
  match isPlaying (manager w), onBeatDetected (manager w) with
  | true, Some cb =>
      mkWorld (manager w) (clock w) (timers w)
        (calls w ++ [mkInvocation cb (closureArgs (origin t) (timerBeat t)) t])
  | _, _ => w
  end.

(** The audio element's position follows the clock while it plays. *)
Definition audioAdvance (ms : Q) (m : AudioManager) : AudioManager :=
  match audioElement m with
  | Some a =>
      if paused a then m
      else setAudioElement
             (Some (mkAudioElement (currentTime a + ms / 1000) false)) m
  | None => m
  end.

(** Let [ms] milliseconds pass: every timer due by then fires, in order. *)
Definition advance (ms : Q) (w : World) : World :=
  let target := clock w + ms in
  let dueNow := filter (fun t => Qle_bool (due t) target) (timers w) in
  let later := filter (fun t => negb (Qle_bool (due t) target)) (timers w) in
  let w1 := fold_left (fun acc t => fire t acc) dueNow
              (mkWorld (manager w) (clock w) later (calls w)) in
  mkWorld (audioAdvance ms (manager w1)) target (timers w1) (calls w1).

(** Lines 289-296: one timer per beat, [beat.time * 1000] ms from now. *)
Definition armAll (beats : list Beat) (w : World) : World :=
  fold_left (fun acc b => setTimeout ByStart b (time b * 1000) acc) beats w.

(** Lines 334-342: one timer per beat after [position]. *)
Definition armAfter (position : Q) (beats : list Beat) (w : World) : World :=
  fold_left
    (fun acc b => setTimeout ByResume b ((time b - position) * 1000) acc)
    (filter (fun b => Js.gtb (time b) position) beats) w.

(** The [try] block of [start] (lines 280-304). *)
Definition startPlayback (env : Browser) (w : World) : Outcome bool * World :=
  if contextResumes env then
    match audioElement (manager w) with
    | None => (Fulfilled false, w)
    | Some a =>
        let m1 := setIsPlaying true
                    (setAudioElement (Some (mkAudioElement 0 (paused a)))
                       (manager w)) in
        let w1 := armAll (beatMap m1) (setManager m1 w) in
        if playStarts env then
          (Fulfilled true,
           setManager (setAudioElement (Some (mkAudioElement 0 false))
                         (manager w1)) w1)
        else (Fulfilled false, w1)
    end
  else (Fulfilled false, w).

(** [start(beatCallback)] *)
Definition start (cb : option Callback) (env : Browser) (w : World)
    : Outcome bool * World :=
  match initialize env (manager w) with
  | (Fulfilled _, m1) =>
      if isAnalyzed m1 then
        startPlayback env (setManager (setOnBeatDetected cb m1) w)
      else
        match analyzeFullTrack env m1 with
        | (Fulfilled _, m2) =>
            startPlayback env (setManager (setOnBeatDetected cb m2) w)
        | (Rejected, m2) => (Rejected, setManager m2 w)
        | (Pending, m2) => (Pending, setManager m2 w)
        end
  | (_, m1) => (Rejected, setManager m1 w)
  end.

(** [stop()] *)
Definition stop (w : World) : World :=
  let m1 := setIsPlaying false (manager w) in
  match audioElement m1 with
  | Some _ => setManager (setAudioElement (Some (mkAudioElement 0 true)) m1) w
  | None => setManager m1 w
  end.

(** [pause()] *)
Definition pause (w : World) : World :=
  let m1 := setIsPlaying false (manager w) in
  match audioElement m1 with
  | Some a =>
      setManager (setAudioElement (Some (mkAudioElement (currentTime a) true))
                    m1) w
  | None => setManager m1 w
  end.

(** [resume()] *)
Definition resume (env : Browser) (w : World) : Outcome unit * World :=
  match audioElement (manager w) with
  | None => (Fulfilled tt, w)
  | Some a =>
      if negb (isAnalyzed (manager w)) then (Fulfilled tt, w)
      else if contextResumes env then
        let w1 := armAfter (currentTime a) (beatMap (manager w)) w in
        if playStarts env then
          (Fulfilled tt,
           setManager
             (setIsPlaying true
                (setAudioElement (Some (mkAudioElement (currentTime a) false))
                   (manager w1))) w1)
        else (Rejected, w1)
      else (Rejected, w)
  end.

(** ** [LevelGenerator] (src/core/level.js) *)

(** An obstacle the generator created: [obstacle.position.x] and the
    intensity [createPyramid] scaled it by. *)
Record Obstacle : Type := mkObstacle {
  positionX : Q;
  obstacleIntensity : Q
}.

(** A value of the [plannedObstacles] map. *)
Record PlannedObstacle : Type := mkPlanned {
  position : Q;
  plannedIntensity : Q;
  spawned : bool
}.

(** What [this.game.scene] was asked to do, in order. *)
Inductive SceneCmd : Type :=
| SceneAdd (o : Obstacle)
| SceneRemove (o : Obstacle).

(** The fields of a [LevelGenerator]; [plannedObstacles] is the [Map] in
    insertion order, keyed by beat time; [scene] is the scene of the game it
    belongs to, as the commands it received. *)
Record LevelGenerator : Type := mkLevelGenerator {
  obstacleQueue : list Obstacle;
  plannedObstacles : list (Q * PlannedObstacle);
  lastObstaclePosition : Q;
  minObstacleDistance : Q;
  maxObstacleDistance : Q;
  spawnDistance : Q;
  despawnDistance : Q;
  scene : list SceneCmd
}.

(** [new LevelGenerator(game)] *)
Definition newLevelGenerator : LevelGenerator :=
  {| obstacleQueue := [];
     plannedObstacles := [];
     lastObstaclePosition := 0;
     minObstacleDistance := 5;
     maxObstacleDistance := 15;
     spawnDistance := 35;
     despawnDistance := -20;
     scene := [] |}.

Definition setPlanned (pl : list (Q * PlannedObstacle)) (g : LevelGenerator) :=
  mkLevelGenerator (obstacleQueue g) pl (lastObstaclePosition g)
    (minObstacleDistance g) (maxObstacleDistance g) (spawnDistance g)
    (despawnDistance g) (scene g).

(** [Map.prototype.set]: an existing key keeps its place. *)
Fixpoint mapSet (k : Q) (v : PlannedObstacle) (m : list (Q * PlannedObstacle))
    : list (Q * PlannedObstacle) :=
  match m with
  | [] => [(k, v)]
  | (k', v') :: rest =>
      if Qeq_bool k' k then (k', v) :: rest else (k', v') :: mapSet k v rest
  end.

(** The [forEach] of [preplanObstacles]; [last] is [lastBeatTime], [None]
    standing for [-Infinity]. *)
Fixpoint preplanLoop (speed spawnDist : Q) (last : option Q)
    (beats : list Beat) (pl : list (Q * PlannedObstacle))
    : list (Q * PlannedObstacle) :=
  match beats with
  | [] => pl
  | b :: rest =>
      let far :=
        match last with
        | None => true
        | Some l => Js.geb (time b - l) (2 # 10)
        end in
      if far then
        let spawnPosition := spawnDist + speed * time b in
        preplanLoop speed spawnDist (Some (time b)) rest
          (mapSet (time b) (mkPlanned spawnPosition (intensity b) false) pl)
      else preplanLoop speed spawnDist last rest pl
  end.

(** [preplanObstacles(beatMap)], [speed] being [this.game.speed]. *)
Definition preplanObstacles (speed : Q) (beats : list Beat)
    (g : LevelGenerator) : LevelGenerator :=
  setPlanned (preplanLoop speed (spawnDistance g) None beats []) g.

(** [spawnObstacle(position, intensity)] *)
Definition spawnObstacle (pos i : Q) (g : LevelGenerator) : LevelGenerator :=
  let obstacle := mkObstacle pos i in
  mkLevelGenerator (Js.push (obstacleQueue g) obstacle) (plannedObstacles g)
    pos (minObstacleDistance g) (maxObstacleDistance g) (spawnDistance g)
    (despawnDistance g) (Js.push (scene g) (SceneAdd obstacle)).

(** The distance test both paths make (lines 61 and 83). *)
Definition farFromLast (spawnPosition : Q) (g : LevelGenerator) : bool :=
  Js.geb (Js.abs (spawnPosition - lastObstaclePosition g))
         (minObstacleDistance g).

(** [generateObstacleOnBeat(intensity, playerFuturePos)] *)
Definition generateObstacleOnBeat (i playerFuturePos : Q) (g : LevelGenerator)
    : LevelGenerator :=
  let spawnPosition := playerFuturePos + spawnDistance g in
  if farFromLast spawnPosition g then spawnObstacle spawnPosition i g else g.

(** The [forEach] of [update] over the planned obstacles (lines 78-89);
    the entries come back with their [spawned] flags. *)
Fixpoint updatePlanned (now playerX : Q) (entries : list (Q * PlannedObstacle))
    (g : LevelGenerator) : list (Q * PlannedObstacle) * LevelGenerator :=
  match entries with
  | [] => ([], g)
  | (beatTime, o) :: rest =>
      let timeUntilBeat := beatTime - now in
      let spawnPosition := playerX + spawnDistance g in
      if negb (spawned o)
         && (Js.gtb timeUntilBeat 0 && Qle_bool timeUntilBeat (25 # 10))
         && farFromLast spawnPosition g
      then
        let g1 := spawnObstacle spawnPosition (plannedIntensity o) g in
        let (rest', g2) := updatePlanned now playerX rest g1 in
        ((beatTime, mkPlanned (position o) (plannedIntensity o) true) :: rest',
         g2)
      else
        let (rest', g2) := updatePlanned now playerX rest g in
        ((beatTime, o) :: rest', g2)
  end.

(** Lines 92-98: obstacles behind the player leave the queue and the scene. *)
Definition despawn (playerX : Q) (g : LevelGenerator) : LevelGenerator :=
  let behind o := Js.ltb (positionX o) (playerX + despawnDistance g) in
  mkLevelGenerator (filter (fun o => negb (behind o)) (obstacleQueue g))
    (plannedObstacles g) (lastObstaclePosition g) (minObstacleDistance g)
    (maxObstacleDistance g) (spawnDistance g) (despawnDistance g)
    (scene g ++ map SceneRemove (filter behind (obstacleQueue g))).

(** [update()], given what it reads of the game: the audio position and
    the player's x. *)
Definition update (now playerX : Q) (g : LevelGenerator) : LevelGenerator :=
  let (entries, g1) := updatePlanned now playerX (plannedObstacles g) g in
  despawn playerX (setPlanned entries g1).

(** [Game.handleBeat(intensity, time)] of src/core/game.js, given the audio
    position, the player's x and [this.speed].  A call without [time] (one
    argument) makes [playerFuturePos] not a number, the distance test false,
    and spawns nothing. *)
Definition handleBeat (speed now playerPos : Q) (arguments : list Q)
    (g : LevelGenerator) : LevelGenerator :=
  match arguments with
  | i :: t :: _ =>
      let playerFuturePos := playerPos + speed * (t - now) in
      generateObstacleOnBeat i playerFuturePos g
  | _ => g
  end.

(** What happens to the generator during a play session. *)
Inductive LevelOp : Type :=
| OnBeat (i playerFuturePos : Q)     (* the reactive path *)
| Update (now playerX : Q).          (* the look-ahead pass of a frame *)

Definition levelStep (g : LevelGenerator) (op : LevelOp) : LevelGenerator :=
  match op with
  | OnBeat i p => generateObstacleOnBeat i p g
  | Update now playerX => update now playerX g
  end.

Definition levelRun (ops : list LevelOp) (g : LevelGenerator) : LevelGenerator :=
  fold_left levelStep ops g.

(** The positions of the obstacles spawned, in the order they were. *)
Fixpoint spawnPositions (cmds : list SceneCmd) : list Q :=
  match cmds with
  | [] => []
  | SceneAdd o :: rest => positionX o :: spawnPositions rest
  | SceneRemove _ :: rest => spawnPositions rest
  end.

(** * Predicates and sessions the properties are stated with *)

(** Each beat is at least [gap] seconds after the one before it. *)
Inductive GapChain (gap : Q) : list Beat -> Prop :=
| chain_nil : GapChain gap []
| chain_one b : GapChain gap [b]
| chain_cons a b l :
    gap <= time b - time a -> GapChain gap (b :: l) ->
    GapChain gap (a :: b :: l).

#[local] Hint Constructors GapChain : core.

(** What a run maintains: the beats so far are chained, and [lastBeatTime]
    is the time of the newest one. *)
Definition DetectorInv (p : BeatParams) (d : Detector) : Prop :=
  GapChain (minBeatIntervalSec p) (dBeatMap d)
  /\ forall x, dBeatMap d <> [] -> lastBeatTime d = time (last (dBeatMap d) x).

(** The filter only removes: what it returns is its argument with some
    elements left out. *)
Fixpoint Sublist (small big : list Beat) : Prop :=
  match big with
  | [] => small = []
  | b :: big' =>
      Sublist small big'
      \/ match small with
         | [] => False
         | a :: small' => a = b /\ Sublist small' big'
         end
  end.

(** A frame whose 512 bins are all at [level]. *)
Definition levelFrame (t : Q) (level : Z) : Frame :=
  mkFrame t (repeat level 512).

(** A track that loads and plays: silence, a full-scale frame at 1 s,
    silence, a full-scale frame at 2 s, then the end. *)
Definition demoBrowser : Browser :=
  {| trackLoads := true;
     contextResumes := true;
     playStarts := true;
     analysisAudio :=
       Plays [levelFrame 0 0; levelFrame 1 255; levelFrame (3 # 2) 0;
              levelFrame 2 255] true |}.

(** A manager on localhost with a track set. *)
Definition demoManager : AudioManager := setAudioTrack (newAudioManager true).

(** The map the analysis of that track gives. *)
Definition demoBeatMap : list Beat := [mkBeat 1 (2 # 2); mkBeat 2 (2 # 2)].

(** Samples of combined energy 50 at the given times. *)
Definition flat (times : list Q) : list Sample :=
  map (fun t => mkSample t 50) times.

(** The spike: combined energy 300 at 1 s. *)
Definition spike : Sample := mkSample 1 300.

(** Case analysis along the branches of [analyzeFullTrack]. *)
Ltac analysis_cases :=
  unfold analyzeFullTrack, initialize, analyzeInitialized; simpl;
  repeat match goal with
    | |- context [ if ?b then _ else _ ] => destruct b eqn:?; simpl
    | |- context [ match audioElement ?m with _ => _ end ] =>
        destruct (audioElement m) eqn:?; simpl
    | |- context [ match analysisAudio ?e with _ => _ end ] =>
        destruct (analysisAudio e) eqn:?; simpl
    | |- context [ match runDetector ?p ?g ?d ?l with _ => _ end ] =>
        destruct (runDetector p g d l) eqn:?; simpl
    | H : ?x = _ |- context [ ?x ] => rewrite H; simpl
    end;
  try discriminate; auto.

(** What [analyzeInitialized] reads of the manager. *)
Definition hasElement (m : AudioManager) : bool :=
  match audioElement m with Some _ => true | None => false end.

(** Two detector states that agree on everything the candidate test and
    the emitted beat read. *)
Definition sameBeatState (d d' : Detector) : Prop :=
  lastBeatTime d = lastBeatTime d'
  /\ lastEnergy d = lastEnergy d'
  /\ dBeatMap d = dBeatMap d'.

(** Two parameter sets that agree on everything but the threshold ones. *)
Definition sameBeatParams (p p' : BeatParams) : Prop :=
  minBeatInterval p = minBeatInterval p'
  /\ energyThreshold p = energyThreshold p'
  /\ minBeatIntensity p = minBeatIntensity p'.

(** Two steps that went the same way and agree as above. *)
Definition sameStep (r r' : Step) : Prop :=
  match r, r' with
  | Returned d, Returned d' => sameBeatState d d'
  | Threw d, Threw d' => sameBeatState d d'
  | _, _ => False
  end.

(** The detector [d] with another beat history and dynamic threshold. *)
Definition withThresholdState (h : list Q) (t : Q) (d : Detector) : Detector :=
  mkDetector (lastBeatTime d) (lastEnergy d) (energyChange d) h t (dBeatMap d).

(** The parameters [p] with other threshold parameters. *)
Definition withThresholdParams (range decay size : Q) (p : BeatParams)
    : BeatParams :=
  mkBeatParams (minBeatInterval p) (energyThreshold p) range decay size
    (minBeatIntensity p).

(** Whether a run returned, rather than threw. *)
Definition returned (r : Step) : bool :=
  match r with Returned _ => true | Threw _ => false end.

(** A page just loaded on localhost, a track set. *)
Definition demoWorld : World := mkWorld demoManager 0 [] [].

(** The session of the examples: the page starts the analysed demo track
    with callback 0. *)
Definition started : World := snd (start (Some 0%nat) demoBrowser demoWorld).

(** After 1.5 s the player pauses, 0.2 s later resumes, and the track
    plays on for a second. *)
Definition pausedAndResumed : World :=
  advance 1000
    (snd (resume demoBrowser (advance 200 (pause (advance 1500 started))))).

(** The browser of the demo, refusing [audioElement.play()]. *)
Definition playRefused : Browser :=
  {| trackLoads := true;
     contextResumes := true;
     playStarts := false;
     analysisAudio := analysisAudio demoBrowser |}.

(** No two obstacles of the queue are closer than [minObstacleDistance]. *)
Definition LiveSpread (g : LevelGenerator) : Prop :=
  ForallOrdPairs
    (fun a b => minObstacleDistance g <= Js.abs (positionX a - positionX b))
    (obstacleQueue g).

(** A session: the obstacles of three beats are planned at speed 10; the
    look-ahead pass spawns one with the player at 1; the beat callback asks
    for one with the player expected at 10; the next look-ahead pass runs
    with the player at 4.1. *)
Definition crowdedSession : LevelGenerator :=
  levelRun
    [Update (1 # 10) 1; OnBeat 1 10; Update (41 # 100) (41 # 10)]
    (preplanObstacles 10 [mkBeat 1 1; mkBeat 2 1; mkBeat 3 1]
       newLevelGenerator).

(** Consecutive positions are at least [d] apart. *)
Inductive Apart (d : Q) : list Q -> Prop :=
| apart_nil : Apart d []
| apart_one x : Apart d [x]
| apart_cons x y l :
    d <= Js.abs (y - x) -> Apart d (y :: l) -> Apart d (x :: y :: l).

(** What a session maintains, [d] being the minimum distance and [start]
    the last position it began with: the spawns so far are consecutively
    apart, and [lastObstaclePosition] is the newest of them. *)
Definition SpawnInv (d start : Q) (g : LevelGenerator) : Prop :=
  minObstacleDistance g = d
  /\ Apart d (start :: spawnPositions (scene g))
  /\ lastObstaclePosition g = last (spawnPositions (scene g)) start.

(** * The rest of the model, and what its properties are stated with *)

(** A manager off localhost (no debug panel) with a track set. *)
Definition remoteManager : AudioManager := setAudioTrack (newAudioManager false).

(** A track that loads and plays three silent frames to its end. *)
Definition silentBrowser : Browser :=
  {| trackLoads := true;
     contextResumes := true;
     playStarts := true;
     analysisAudio :=
       Plays [levelFrame 0 0; levelFrame 1 0; levelFrame 2 0] true |}.

(** The combined energy of the last frame of [before], or 0, the initial
    [lastEnergy], when there is none. *)
Definition energyBefore (before : list Frame) : Q :=
  last (map (fun f => frameEnergy (dataArray f)) before) 0.

(** The beat [b] was emitted at the frame [f] that follows [before]: the
    frame passed the energy test and gave the beat its time and intensity. *)
Definition EmittedAt (p : BeatParams) (before : list Frame) (f : Frame)
    (b : Beat) : Prop :=
  let e := frameEnergy (dataArray f) in
  let change := e - energyBefore before in
  time b = frameTime f
  /\ (energyThreshold p < e \/ energyThreshold p / 2 < change)
  /\ intensity b = beatIntensity p e change.

(** [h] is what a first-in first-out buffer of capacity [size] holds of the
    values [pushed] into it, in order: the newest of them, at most [size],
    and all of them unless the buffer is full. *)
Definition FifoOf (size : Q) (pushed h : list Q) : Prop :=
  exists older,
    pushed = older ++ h
    /\ Js.len h <= size
    /\ (older = [] \/ size < Js.len h + 1).

(** The timer [start] arms at clock [c] for the beat [b]. *)
Definition startTimer (c : Q) (b : Beat) : Timer :=
  mkTimer (c + time b * 1000) ByStart b.

(** The invocation the closure of a timer makes of the callback [cb]. *)
Definition invocationOf (cb : Callback) (t : Timer) : Invocation :=
  mkInvocation cb (closureArgs (origin t) (timerBeat t)) t.

(** The session of the examples, paused after 1.5 s. *)
Definition pausedSession : World := pause (advance 1500 started).

(** A page just loaded, its manager new and no track set. *)
Definition blankWorld : World := mkWorld (newAudioManager true) 0 [] [].

(** A page just loaded on a host other than localhost (no debug panel), a
    track set. *)
Definition remoteWorld : World := mkWorld remoteManager 0 [] [].

(** The manager of the demo once its track is analysed, and a page holding
    it with nothing pending. *)
Definition analysedManager : AudioManager :=
  snd (analyzeFullTrack demoBrowser demoManager).

Definition readyWorld : World := mkWorld analysedManager 0 [] [].

(** The timer [resume] arms at clock [c] and audio position [pos] for the
    beat [b]. *)
Definition resumeTimer (c pos : Q) (b : Beat) : Timer :=
  mkTimer (c + (time b - pos) * 1000) ByResume b.

(** The timers that are still pending once the clock has reached [target]. *)
Definition pendingAfter (target : Q) (q : list Timer) : list Timer :=
  filter (fun t => negb (Qle_bool (due t) target)) q.

(** The planned obstacle [preplanObstacles] stores for the beat [b]. *)
Definition plannedFor (speed spawnDist : Q) (b : Beat)
    : Q * PlannedObstacle :=
  (time b, mkPlanned (spawnDist + speed * time b) (intensity b) false).

(** The beats that pass the 0.2 s test of [preplanObstacles], [last] being
    the time of the beat kept before them ([None] at the start). *)
Fixpoint keptBeats (last : option Q) (beats : list Beat) : list Beat :=
  match beats with
  | [] => []
  | b :: rest =>
      match last with
      | None => b :: keptBeats (Some (time b)) rest
      | Some l =>
          if Js.geb (time b - l) (2 # 10)
          then b :: keptBeats (Some (time b)) rest
          else keptBeats last rest
      end
  end.

(** An entry of the plan and what a later pass made of it: the same beat
    time, position and intensity, and still marked if it was. *)
Definition sameEntryMarked (e e' : Q * PlannedObstacle) : Prop :=
  fst e = fst e'
  /\ position (snd e) = position (snd e')
  /\ plannedIntensity (snd e) = plannedIntensity (snd e')
  /\ (spawned (snd e) = true -> spawned (snd e') = true).

(** [reset()] of the generator. *)
Definition reset (g : LevelGenerator) : LevelGenerator :=
  mkLevelGenerator [] [] 0 (minObstacleDistance g) (maxObstacleDistance g)
    (spawnDistance g) (despawnDistance g)
    (scene g ++ map SceneRemove (obstacleQueue g)).

(** What happens to the generator over the life of a page: the frames and
    beats of a session, planning, and resetting. *)
Inductive PageOp : Type :=
| InSession (op : LevelOp)
| Plan (speed : Q) (beats : list Beat)
| ResetLevel.

Definition pageStep (g : LevelGenerator) (op : PageOp) : LevelGenerator :=
  match op with
  | InSession o => levelStep g o
  | Plan speed beats => preplanObstacles speed beats g
  | ResetLevel => reset g
  end.

Definition pageRun (ops : list PageOp) (g : LevelGenerator) : LevelGenerator :=
  fold_left pageStep ops g.

(** The obstacles the scene was asked to add, and those it was asked to
    remove, in order. *)
Fixpoint sceneAdded (cmds : list SceneCmd) : list Obstacle :=
  match cmds with
  | [] => []
  | SceneAdd o :: rest => o :: sceneAdded rest
  | SceneRemove _ :: rest => sceneAdded rest
  end.

Fixpoint sceneRemoved (cmds : list SceneCmd) : list Obstacle :=
  match cmds with
  | [] => []
  | SceneAdd _ :: rest => sceneRemoved rest
  | SceneRemove o :: rest => o :: sceneRemoved rest
  end.

(** Every obstacle the scene was asked to add is in the queue or was
    removed from the scene, once each. *)
Definition SceneAgrees (g : LevelGenerator) : Prop :=
  Permutation (sceneAdded (scene g))
    (obstacleQueue g ++ sceneRemoved (scene g)).

(** ** [Player] (src/core/player.js) *)

(** The fields of a [Player] that its methods read or write.  Angles are
    in units of pi ([Math.PI * 8] is 8, [Math.PI / 2] is 1/2): every use of
    an angle is a sum, a product by a time, a sign or a comparison, which
    that scale leaves as they are.  The velocity and the positions are
    vectors of which only the components below ever change. *)
Record Player : Type := mkPlayer {
  meshX : Q;                  (* this.mesh.position.x *)
  meshY : Q;                  (* this.mesh.position.y *)
  meshRotationZ : Q;          (* this.mesh.rotation.z *)
  velocityY : Q;              (* this.velocity.y *)
  gravity : Q;
  baseJumpForce : Q;
  maxJumpForce : Q;
  isGrounded : bool;
  isJumping : bool;
  jumpStartTime : Q;
  jumpHeldTime : Q;
  maxJumpHoldTime : Q;
  minJumpVelocity : Q;
  targetRotation : Q;
  currentRotation : Q;
  rotationSpeed : Q;
  isSpaceDown : bool;
  isMouseDown : bool;
  collisionX : Q;             (* this.collisionMesh.position.x *)
  collisionY : Q;             (* this.collisionMesh.position.y *)
  collisionRotationZ : Q      (* this.collisionMesh.rotation.z *)
}.

(** [new Player(game)]: the mesh the constructor ends with is the second
    one it creates, at the origin of its group. *)
Definition newPlayer : Player :=
  {| meshX := 0; meshY := 0; meshRotationZ := 0;
     velocityY := 0;
     gravity := -35; baseJumpForce := 10; maxJumpForce := 14;
     isGrounded := true; isJumping := false;
     jumpStartTime := 0; jumpHeldTime := 0;
     maxJumpHoldTime := 2 # 10; minJumpVelocity := 7;
     targetRotation := 0; currentRotation := 0; rotationSpeed := 8;
     isSpaceDown := false; isMouseDown := false;
     collisionX := 0; collisionY := 0; collisionRotationZ := 0 |}.

(** [Math.sign(a)] *)
Definition sign (a : Q) : Q :=
  if Js.gtb a 0 then 1 else if Js.ltb a 0 then -1 else 0.

(** [update(deltaTime)], [speed] being [this.game.speed]. *)
Definition playerUpdate (speed deltaTime : Q) (p : Player) : Player :=
  (* variable jump height *)
  let held := isJumping p && (isSpaceDown p || isMouseDown p) in
  let heldTime := if held then jumpHeldTime p + deltaTime else jumpHeldTime p in
  let jumpProgress := Js.min (heldTime / maxJumpHoldTime p) 1 in
  let currentJumpForce :=
    baseJumpForce p + (maxJumpForce p - baseJumpForce p) * jumpProgress in
  let lifted :=
    if held && Qle_bool heldTime (maxJumpHoldTime p)
    then Js.max (velocityY p) currentJumpForce
    else velocityY p in
  (* gravity *)
  let fallMultiplier :=
    if negb (isJumping p) || (negb (isSpaceDown p) && negb (isMouseDown p))
    then 15 # 10 else 1 in
  let falling :=
    if negb (isGrounded p)
    then Js.max (lifted + gravity p * fallMultiplier * deltaTime) (-25)
    else lifted in
  (* position *)
  let x := meshX p + speed * deltaTime in
  let y := meshY p + falling * deltaTime in
  let landed := Qle_bool y 1 in
  (* rotation *)
  let rotationThisFrame := rotationSpeed p * deltaTime in
  let remainingRotation := targetRotation p - currentRotation p in
  let turning := negb (Qeq_bool (currentRotation p) (targetRotation p)) in
  let arrives := Qle_bool (Js.abs remainingRotation) rotationThisFrame in
  let rotation :=
    if turning then
      if arrives then targetRotation p
      else currentRotation p + sign remainingRotation * rotationThisFrame
    else currentRotation p in
  {| meshX := x;
     meshY := if landed then 1 else y;
     meshRotationZ := if turning then rotation else meshRotationZ p;
     velocityY := if landed then 0 else falling;
     gravity := gravity p;
     baseJumpForce := baseJumpForce p;
     maxJumpForce := maxJumpForce p;
     isGrounded := if landed then true else isGrounded p;
     isJumping := if landed then false else isJumping p;
     jumpStartTime := jumpStartTime p;
     jumpHeldTime := if landed then 0 else heldTime;
     maxJumpHoldTime := maxJumpHoldTime p;
     minJumpVelocity := minJumpVelocity p;
     targetRotation := targetRotation p;
     currentRotation := rotation;
     rotationSpeed := rotationSpeed p;
     isSpaceDown := isSpaceDown p;
     isMouseDown := isMouseDown p;
     collisionX := if held then meshX p else collisionX p;
     collisionY := if held then meshY p else collisionY p;
     collisionRotationZ :=
       if held then meshRotationZ p else collisionRotationZ p |}.

(** The writes of a key or mouse handler to the two input flags and
    [isJumping]. *)
Definition setInputs (space mouse jumping : bool) (p : Player) : Player :=
  mkPlayer (meshX p) (meshY p) (meshRotationZ p) (velocityY p) (gravity p)
    (baseJumpForce p) (maxJumpForce p) (isGrounded p) jumping
    (jumpStartTime p) (jumpHeldTime p) (maxJumpHoldTime p)
    (minJumpVelocity p) (targetRotation p) (currentRotation p)
    (rotationSpeed p) space mouse (collisionX p) (collisionY p)
    (collisionRotationZ p).

(** [jump()], [nowMs] being [performance.now()]. *)
Definition jump (nowMs : Q) (p : Player) : Player :=
  if isGrounded p then
    mkPlayer (meshX p) (meshY p) (meshRotationZ p) (minJumpVelocity p)
      (gravity p) (baseJumpForce p) (maxJumpForce p) false true nowMs 0
      (maxJumpHoldTime p) (minJumpVelocity p) (targetRotation p - (1 # 2))
      (currentRotation p) (rotationSpeed p) (isSpaceDown p) (isMouseDown p)
      (collisionX p) (collisionY p) (collisionRotationZ p)
  else p.

(** [onKeyDown(event)], [space] saying whether [event.code] is ['Space']. *)
Definition onKeyDown (space : bool) (nowMs : Q) (p : Player) : Player :=
  if space && negb (isSpaceDown p)
  then jump nowMs (setInputs true (isMouseDown p) (isJumping p) p)
  else p.

(** [onKeyUp(event)] *)
Definition onKeyUp (space : bool) (p : Player) : Player :=
  if space then setInputs false (isMouseDown p) false p else p.

(** [onMouseDown(event)] *)
Definition onMouseDown (nowMs : Q) (p : Player) : Player :=
  if negb (isMouseDown p)
  then jump nowMs (setInputs (isSpaceDown p) true (isJumping p) p)
  else p.

(** [onMouseUp()] *)
Definition onMouseUp (p : Player) : Player :=
  setInputs (isSpaceDown p) false false p.

(** What happens to the player: a frame of the game loop, or an input. *)
Inductive PlayerEvent : Type :=
| Tick (speed deltaTime : Q)
| KeyDown (space : bool) (nowMs : Q)
| KeyUp (space : bool)
| MouseDown (nowMs : Q)
| MouseUp.

Definition playerStep (p : Player) (e : PlayerEvent) : Player :=
  match e with
  | Tick speed deltaTime => playerUpdate speed deltaTime p
  | KeyDown space nowMs => onKeyDown space nowMs p
  | KeyUp space => onKeyUp space p
  | MouseDown nowMs => onMouseDown nowMs p
  | MouseUp => onMouseUp p
  end.

Definition playerRun (events : list PlayerEvent) (p : Player) : Player :=
  fold_left playerStep events p.

(** The time of a frame, 0 for an input. *)
Definition frameTimeOf (e : PlayerEvent) : Q :=
  match e with Tick _ deltaTime => deltaTime | _ => 0 end.

(** The distance the game moves the player forward during an event. *)
Definition advanceOf (e : PlayerEvent) : Q :=
  match e with Tick speed deltaTime => speed * deltaTime | _ => 0 end.

(** The physics constants are those of the constructor. *)
Definition DefaultPhysics (p : Player) : Prop :=
  gravity p = -35 /\ baseJumpForce p = 10 /\ maxJumpForce p = 14
  /\ maxJumpHoldTime p = 2 # 10 /\ minJumpVelocity p = 7
  /\ rotationSpeed p = 8.

(** What the player keeps through frames and inputs: a grounded player is
    at rest and not jumping, and the vertical speed stays between the fall
    limit and the greatest jump force. *)
Definition PlayerInv (p : Player) : Prop :=
  DefaultPhysics p
  /\ (isGrounded p = true -> isJumping p = false /\ velocityY p = 0)
  /\ -25 <= velocityY p /\ velocityY p <= 14.

(** A short play: space pressed on the ground, three frames of 1/60 s at
    speed 10, space released, one more frame. *)
Definition demoPlay : list PlayerEvent :=
  [Tick 10 (1 # 60); KeyDown true 100; Tick 10 (1 # 60); Tick 10 (1 # 60);
   Tick 10 (1 # 60); KeyUp true; Tick 10 (1 # 60)].

(** The player of the short play after its second event: just off the
    ground. *)
Definition airbornePlayer : Player :=
  playerRun [Tick 10 (1 # 60); KeyDown true 100] newPlayer.

(** * Properties *)

(** ** Comparisons *)

Lemma geb_true (a b : Q) : Js.geb a b = true <-> b <= a.
Proof. unfold Js.geb. apply Qle_bool_iff. Qed.

Lemma gtb_true (a b : Q) : Js.gtb a b = true <-> b < a.
Proof.
  unfold Js.gtb. rewrite negb_true_iff. split; intro H.
  - apply Qnot_le_lt. intro L. apply Qle_bool_iff in L. congruence.
  - destruct (Qle_bool a b) eqn:E; [ | reflexivity ].
    apply Qle_bool_iff in E. exfalso. apply (Qlt_not_le _ _ H E).
Qed.

Lemma gtb_false (a b : Q) : Js.gtb a b = false <-> a <= b.
Proof.
  unfold Js.gtb. rewrite negb_false_iff. apply Qle_bool_iff.
Qed.

Lemma ltb_true (a b : Q) : Js.ltb a b = true <-> a < b.
Proof. apply (gtb_true b a). Qed.

Lemma max_lower (a b : Q) : b <= Js.max a b.
Proof.
  unfold Js.max. destruct (Qle_bool a b) eqn:E.
  - apply Qle_refl.
  - apply Qlt_le_weak. apply gtb_true. unfold Js.gtb. now rewrite E.
Qed.

Lemma max_upper (a b c : Q) : a <= c -> b <= c -> Js.max a b <= c.
Proof. unfold Js.max. now destruct (Qle_bool a b). Qed.

Lemma min_upper (a b : Q) : Js.min a b <= b.
Proof.
  unfold Js.min. destruct (Qle_bool a b) eqn:E.
  - now apply Qle_bool_iff.
  - apply Qle_refl.
Qed.

Lemma minBeatIntervalSec_pos (p : BeatParams) :
  0 < minBeatInterval p -> 0 < minBeatIntervalSec p.
Proof.
  intro H. unfold minBeatIntervalSec.
  apply Qlt_shift_div_l; [ reflexivity | ]. now rewrite Qmult_0_l.
Qed.

(** ** The beats of a run keep their distance *)

Lemma chain_snoc gap l x :
  GapChain gap l ->
  (l <> [] -> gap <= time x - time (last l x)) ->
  GapChain gap (l ++ [x]).
Proof.
  induction 1 as [ | b | a b l Hab Hl IH ]; intro Hx; simpl.
  - constructor.
  - constructor; [ | constructor ]. apply Hx. discriminate.
  - constructor; [ exact Hab | ]. apply IH. intros _.
    apply Hx. discriminate.
Qed.

Lemma chain_tail gap a l : GapChain gap (a :: l) -> GapChain gap l.
Proof. inversion 1; subst; auto. Qed.

Lemma fresh_inv p : DetectorInv p freshDetector.
Proof. split; simpl; [ constructor | congruence ]. Qed.

Lemma last_snoc {A : Type} (l : list A) (x d : A) : last (l ++ [x]) d = x.
Proof.
  induction l as [ | a l IH ]; [ reflexivity | ].
  simpl. destruct (l ++ [x]) eqn:E; [ | exact IH ].
  destruct l; discriminate.
Qed.

Lemma step_inv p debug d s :
  DetectorInv p d -> DetectorInv p (stateOf (detectorStep p debug d s)).
Proof.
  intros [Hc Hl]. unfold detectorStep.
  destruct (beatCandidate p _ _ _) eqn:Ec; [ | split; assumption ].
  destruct (Js.geb _ (minBeatIntensity p)); [ | split; assumption ].
  assert (Hgap : minBeatIntervalSec p <= sampleTime s - lastBeatTime d).
  { unfold beatCandidate in Ec. apply andb_true_iff in Ec.
    now apply geb_true. }
  assert (DetectorInv p
    {| lastBeatTime := sampleTime s;
       lastEnergy := totalEnergy s;
       energyChange := totalEnergy s - lastEnergy d;
       dBeatHistory := updateHistory p (dBeatHistory d) (totalEnergy s);
       dDynamicThreshold :=
         updateThreshold p (updateHistory p (dBeatHistory d) (totalEnergy s))
           (dDynamicThreshold d);
       dBeatMap :=
         Js.push (dBeatMap d)
           (mkBeat (sampleTime s)
              (beatIntensity p (totalEnergy s) (totalEnergy s - lastEnergy d)))
    |}) as Hhit.
  { split; simpl.
    - unfold Js.push. apply chain_snoc; [ exact Hc | ].
      intro Hne. simpl. rewrite <- (Hl _ Hne). exact Hgap.
    - intros x _. unfold Js.push. now rewrite last_snoc. }
  destruct debug; exact Hhit.
Qed.

Lemma run_inv p debug samples : forall d,
  DetectorInv p d -> DetectorInv p (stateOf (runDetector p debug d samples)).
Proof.
  induction samples as [ | s rest IH ]; intros d Hd; simpl; [ exact Hd | ].
  pose proof (step_inv p debug d s Hd) as Hs.
  destruct (detectorStep p debug d s) as [d' | d']; simpl in *.
  - now apply IH.
  - exact Hs.
Qed.

(** ** Sorting and filtering a chained list changes nothing *)

Lemma sort_chain gap l : 0 < gap -> GapChain gap l -> sortByTime l = l.
Proof.
  intros Hpos. induction 1 as [ | b | a b l Hab Hl IH ]; try reflexivity.
  change (sortByTime (a :: b :: l)) with (insertBeat a (sortByTime (b :: l))).
  rewrite IH. simpl.
  assert (E : Js.gtb (time a - time b) 0 = false).
  { apply gtb_false. lra. }
  now rewrite E.
Qed.

Lemma filterAfter_chain p a l :
  GapChain (minBeatIntervalSec p) (a :: l) -> filterAfter p a l = l.
Proof.
  revert a. induction l as [ | b l IH ]; intros a H; [ reflexivity | ].
  inversion H as [ | | ? ? ? Hab Hl ]; subst. simpl.
  assert (E : keepBeat p a b = true).
  { unfold keepBeat. apply orb_true_iff. left. now apply geb_true. }
  rewrite E. f_equal. now apply IH.
Qed.

Lemma postProcess_chain p l :
  0 < minBeatInterval p -> GapChain (minBeatIntervalSec p) l ->
  postProcess p l = l.
Proof.
  intros Hpos Hl. unfold postProcess.
  rewrite (sort_chain _ _ (minBeatIntervalSec_pos p Hpos) Hl).
  destruct l as [ | a l ]; [ reflexivity | ].
  simpl. f_equal. now apply filterAfter_chain.
Qed.

Lemma sublist_nil big : Sublist [] big.
Proof. induction big; simpl; auto. Qed.

Lemma filterAfter_sublist p l : forall a, Sublist (filterAfter p a l) l.
Proof.
  induction l as [ | b l IH ]; intro a; simpl; [ reflexivity | ].
  destruct (keepBeat p a b); [ right; split; [ reflexivity | apply IH ] | ].
  left. apply IH.
Qed.

Lemma filterBeats_sublist p l : Sublist (filterBeats p l) l.
Proof.
  destruct l as [ | a l ]; simpl; [ reflexivity | ].
  right. split; [ reflexivity | apply filterAfter_sublist ].
Qed.

(** ** What a fulfilled analysis returns *)

Lemma initialize_params env m :
  beatParams (snd (initialize env m)) = beatParams m
  /\ debugDiv (snd (initialize env m)) = debugDiv m.
Proof.
  unfold initialize.
  destruct (isInitialized m), (audioUrl m), (trackLoads env); auto.
Qed.

Lemma analyzeInitialized_fulfilled env m B m' :
  analyzeInitialized env m = (Fulfilled B, m') ->
  exists frames d,
    analysisAudio env = Plays frames true
    /\ runDetector (beatParams m) (debugDiv m) freshDetector
         (map sampleOfFrame frames) = Returned d
    /\ B = postProcess (beatParams m) (dBeatMap d)
    /\ beatMap m' = B /\ isAnalyzed m' = true.
Proof.
  unfold analyzeInitialized. simpl.
  destruct (audioElement m); [ | discriminate ].
  destruct (analysisAudio env) as [ | | frames ended ]; try discriminate.
  destruct (runDetector _ _ _ _) as [d | d] eqn:Er; [ | discriminate ].
  destruct ended; [ | discriminate ].
  intro H. injection H as HB Hm. subst. exists frames, d. auto.
Qed.

Lemma analyzeFullTrack_fulfilled env m B m' :
  analyzeFullTrack env m = (Fulfilled B, m') ->
  exists frames d,
    analysisAudio env = Plays frames true
    /\ runDetector (beatParams m) (debugDiv m) freshDetector
         (map sampleOfFrame frames) = Returned d
    /\ B = postProcess (beatParams m) (dBeatMap d)
    /\ beatMap m' = B /\ isAnalyzed m' = true.
Proof.
  unfold analyzeFullTrack. destruct (initialize_params env m) as [Hp Hd].
  destruct (initialize env m) as [[ [] | | ] m1]; try discriminate.
  simpl in Hp, Hd. rewrite <- Hp, <- Hd.
  apply analyzeInitialized_fulfilled.
Qed.

(** The frozen map of a fulfilled analysis is the chain of raw beats. *)
Lemma analysis_chain env m B m' :
  0 < minBeatInterval (beatParams m) ->
  analyzeFullTrack env m = (Fulfilled B, m') ->
  GapChain (minBeatIntervalSec (beatParams m)) B.
Proof.
  intros Hpos H.
  destruct (analyzeFullTrack_fulfilled _ _ _ _ H)
    as (frames & d & _ & Hrun & HB & _).
  pose proof (run_inv (beatParams m) (debugDiv m) (map sampleOfFrame frames)
                freshDetector (fresh_inv _)) as [Hc _].
  rewrite Hrun in Hc. simpl in Hc.
  subst B. now rewrite postProcess_chain.
Qed.

Lemma chain_pairs gap l :
  0 <= gap -> GapChain gap l ->
  ForallOrdPairs (fun a b => gap <= time b - time a) l.
Proof.
  intro Hpos. induction 1 as [ | b | a b l Hab Hl IH ].
  - constructor.
  - constructor; constructor.
  - constructor; [ | exact IH ].
    inversion IH as [ | ? ? Hb _ ]; subst.
    constructor; [ exact Hab | ].
    apply Forall_forall. intros c Hc.
    rewrite Forall_forall in Hb. specialize (Hb c Hc). lra.
Qed.

Lemma pairs_weaken (R S : Beat -> Beat -> Prop) l :
  (forall a b, R a b -> S a b) -> ForallOrdPairs R l -> ForallOrdPairs S l.
Proof.
  intro HRS. induction 1 as [ | a l Ha Hl IH ]; constructor; [ | exact IH ].
  revert Ha. apply Forall_impl. apply HRS.
Qed.

Lemma chain_adjacent gap l i a b :
  GapChain gap l ->
  nth_error l i = Some a -> nth_error l (S i) = Some b ->
  gap <= time b - time a.
Proof.
  intro H. revert i. induction H as [ | c | c e l Hce Hl IH ]; intros i Ha Hb.
  - destruct i; discriminate.
  - destruct i as [ | [ | i ] ]; discriminate.
  - destruct i as [ | i ].
    + simpl in Ha, Hb. injection Ha as <-. injection Hb as <-. exact Hce.
    + apply (IH i); assumption.
Qed.

(** ** The analysis of the demo track *)

Lemma demo_analysis :
  analyzeFullTrack demoBrowser demoManager
  = (Fulfilled demoBeatMap, snd (analyzeFullTrack demoBrowser demoManager)).
Proof. vm_compute. reflexivity. Qed.

(** ** C3 and C4: order and spacing of a generated map *)

(** C3.  Every beat map an analysis run generates is strictly ordered by
    time, and each adjacent pair of its events is either at least
    [minBeatInterval] (in seconds) apart or has the later event more than
    1.2 times as intense as the earlier one. *)
Theorem generated_map_adjacent_pairs env m B m' :
  0 < minBeatInterval (beatParams m) ->
  analyzeFullTrack env m = (Fulfilled B, m') ->
  ForallOrdPairs (fun a b => time a < time b) B
  /\ forall i a b,
       nth_error B i = Some a -> nth_error B (S i) = Some b ->
       minBeatIntervalSec (beatParams m) <= time b - time a
       \/ intensity a * (12 # 10) < intensity b.
Proof.
  intros Hpos H.
  pose proof (analysis_chain _ _ _ _ Hpos H) as Hc.
  pose proof (minBeatIntervalSec_pos _ Hpos) as Hgap.
  split.
  - eapply pairs_weaken; [ | apply chain_pairs; [ | exact Hc ] ].
    + intros a b Hab. simpl in Hab. lra.
    + lra.
  - intros i a b Ha Hb. left. exact (chain_adjacent _ _ _ _ _ Hc Ha Hb).
Qed.

Lemma generated_map_adjacent_pairs_witness :
  0 < minBeatInterval (beatParams demoManager)
  /\ analyzeFullTrack demoBrowser demoManager
     = (Fulfilled demoBeatMap, snd (analyzeFullTrack demoBrowser demoManager))
  /\ ForallOrdPairs (fun a b => time a < time b) demoBeatMap
  /\ forall i a b,
       nth_error demoBeatMap i = Some a ->
       nth_error demoBeatMap (S i) = Some b ->
       minBeatIntervalSec (beatParams demoManager) <= time b - time a
       \/ intensity a * (12 # 10) < intensity b.
Proof.
  split; [ reflexivity | ]. split; [ vm_compute; reflexivity | ].
  apply (generated_map_adjacent_pairs demoBrowser demoManager demoBeatMap
           (snd (analyzeFullTrack demoBrowser demoManager))).
  - reflexivity.
  - vm_compute. reflexivity.
Defined.

(** The filter on its own does not give that: on an array that no run
    produces, the middle beat is dropped and the third, kept because it is
    stronger than the dropped one, ends up 0.2 s after the first and weaker
    than it. *)
Example filter_alone_keeps_close_pair :
  filterBeats defaultBeatParams
    [mkBeat 0 1; mkBeat (1 # 10) (5 # 10); mkBeat (2 # 10) (7 # 10)]
  = [mkBeat 0 1; mkBeat (2 # 10) (7 # 10)]
  /\ keepBeat defaultBeatParams (mkBeat 0 1) (mkBeat (2 # 10) (7 # 10)) = false.
Proof. split; reflexivity. Qed.

(** C4.  In every beat map the analysis produces, times increase strictly
    and any two events are at least [minBeatInterval] (in seconds) apart:
    the raw beats of the run are already spaced so by the debounce gate, and
    the map is those beats with none added. *)
Theorem generated_map_min_spacing env m B m' :
  0 < minBeatInterval (beatParams m) ->
  analyzeFullTrack env m = (Fulfilled B, m') ->
  ForallOrdPairs
    (fun a b =>
       time a < time b
       /\ minBeatIntervalSec (beatParams m) <= time b - time a) B
  /\ exists frames d,
       analysisAudio env = Plays frames true
       /\ runDetector (beatParams m) (debugDiv m) freshDetector
            (map sampleOfFrame frames) = Returned d
       /\ GapChain (minBeatIntervalSec (beatParams m)) (dBeatMap d)
       /\ Sublist B (sortByTime (dBeatMap d)).
Proof.
  intros Hpos H.
  pose proof (analysis_chain _ _ _ _ Hpos H) as Hc.
  pose proof (minBeatIntervalSec_pos _ Hpos) as Hgap.
  split.
  - eapply pairs_weaken; [ | apply chain_pairs; [ | exact Hc ] ].
    + intros a b Hab. simpl in Hab. split; lra.
    + lra.
  - destruct (analyzeFullTrack_fulfilled _ _ _ _ H)
      as (frames & d & Hplay & Hrun & HB & _).
    exists frames, d. repeat split; try assumption.
    + pose proof (run_inv (beatParams m) (debugDiv m)
                    (map sampleOfFrame frames) freshDetector (fresh_inv _))
        as [Hd _].
      now rewrite Hrun in Hd.
    + subst B. apply filterBeats_sublist.
Qed.

Lemma generated_map_min_spacing_witness :
  0 < minBeatInterval (beatParams demoManager)
  /\ analyzeFullTrack demoBrowser demoManager
     = (Fulfilled demoBeatMap, snd (analyzeFullTrack demoBrowser demoManager))
  /\ ForallOrdPairs
       (fun a b =>
          time a < time b
          /\ minBeatIntervalSec (beatParams demoManager) <= time b - time a)
       demoBeatMap.
Proof.
  split; [ reflexivity | ]. split; [ vm_compute; reflexivity | ].
  apply (generated_map_min_spacing demoBrowser demoManager demoBeatMap
           (snd (analyzeFullTrack demoBrowser demoManager))).
  - reflexivity.
  - vm_compute. reflexivity.
Defined.

(** ** C6: a spike among flat samples, and flat samples alone *)

Lemma intensity_bounds p energy change :
  minBeatIntensity p <= 1 ->
  minBeatIntensity p <= beatIntensity p energy change
  /\ beatIntensity p energy change <= 1.
Proof.
  intro H. unfold beatIntensity. split.
  - apply max_lower.
  - apply max_upper; [ apply min_upper | exact H ].
Qed.

(** The two ways a frame handler goes. *)
Lemma detectorStep_quiet p debug d s :
  beatCandidate p (totalEnergy s) (totalEnergy s - lastEnergy d)
    (sampleTime s - lastBeatTime d) = false ->
  exists d',
    detectorStep p debug d s = Returned d'
    /\ dBeatMap d' = dBeatMap d
    /\ lastBeatTime d' = lastBeatTime d
    /\ lastEnergy d' = totalEnergy s.
Proof.
  intro E. unfold detectorStep. rewrite E. eexists. repeat split.
Qed.

Lemma detectorStep_hit p debug d s :
  beatCandidate p (totalEnergy s) (totalEnergy s - lastEnergy d)
    (sampleTime s - lastBeatTime d) = true ->
  let b := mkBeat (sampleTime s)
             (beatIntensity p (totalEnergy s) (totalEnergy s - lastEnergy d)) in
  let d' := stateOf (detectorStep p debug d s) in
  dBeatMap d' = dBeatMap d ++ [b]
  /\ lastBeatTime d' = sampleTime s
  /\ lastEnergy d' = totalEnergy s
  /\ detectorStep p debug d s = (if debug then Returned d' else Threw d').
Proof.
  intro E. unfold detectorStep. rewrite E.
  assert (E3 : Js.geb (beatIntensity p (totalEnergy s)
                         (totalEnergy s - lastEnergy d))
                 (minBeatIntensity p) = true).
  { apply geb_true. unfold beatIntensity. apply max_lower. }
  rewrite E3. destruct debug; simpl; repeat split.
Qed.

(** A sample of energy 50 after a non-negative one is no candidate. *)
Lemma flat_step debug d t :
  0 <= lastEnergy d ->
  exists d',
    detectorStep defaultBeatParams debug d (mkSample t 50) = Returned d'
    /\ dBeatMap d' = dBeatMap d
    /\ lastBeatTime d' = lastBeatTime d
    /\ lastEnergy d' = 50.
Proof.
  intro Hle. apply (detectorStep_quiet defaultBeatParams debug d (mkSample t 50)).
  unfold beatCandidate. apply andb_false_iff. left.
  apply orb_false_iff. split; [ reflexivity | ].
  apply gtb_false. apply Qle_trans with 50.
  - cbn [totalEnergy]. lra.
  - vm_compute. discriminate.
Qed.

Lemma flat_run debug times : forall d,
  0 <= lastEnergy d ->
  exists d',
    runDetector defaultBeatParams debug d (flat times) = Returned d'
    /\ dBeatMap d' = dBeatMap d
    /\ lastBeatTime d' = lastBeatTime d
    /\ 0 <= lastEnergy d'.
Proof.
  induction times as [ | t rest IH ]; intros d Hle.
  - exists d. simpl. auto.
  - destruct (flat_step debug d t Hle) as (d1 & E & Hm & Hl & He).
    destruct (IH d1) as (d2 & Hrun & Hm2 & Hl2 & He2).
    + rewrite He. discriminate.
    + exists d2. change (flat (t :: rest)) with (mkSample t 50 :: flat rest).
      cbn [runDetector]. rewrite E.
      repeat split; try assumption; congruence.
Qed.

(** The spike is a candidate whatever came before, if no beat did. *)
Lemma spike_step debug d :
  lastBeatTime d = 0 ->
  let d' := stateOf (detectorStep defaultBeatParams debug d spike) in
  exists b,
    dBeatMap d' = dBeatMap d ++ [b]
    /\ lastEnergy d' = 300
    /\ detectorStep defaultBeatParams debug d spike
       = (if debug then Returned d' else Threw d')
    /\ time b = 1 /\ 70 # 100 <= intensity b /\ intensity b <= 1.
Proof.
  intros Hl d'.
  assert (E : beatCandidate defaultBeatParams (totalEnergy spike)
                (totalEnergy spike - lastEnergy d)
                (sampleTime spike - lastBeatTime d) = true).
  { unfold beatCandidate. apply andb_true_iff. split.
    - apply orb_true_iff. left. reflexivity.
    - rewrite Hl. reflexivity. }
  destruct (detectorStep_hit defaultBeatParams debug d spike E)
    as (Hm & _ & He & Hs).
  eexists. split; [ exact Hm | ]. split; [ exact He | ].
  split; [ exact Hs | ]. split; [ reflexivity | ].
  apply (intensity_bounds defaultBeatParams). discriminate.
Qed.

(** C6.  With the default parameters, a run over samples of energy 50 with
    one sample of energy 300 at 1 s among them leaves exactly one beat, at
    1 s and of intensity between 0.70 and 1, which post-processing keeps;
    a run over samples of energy 50 alone returns with no beat.  With the
    debug panel the spike run returns as well. *)
Theorem synthetic_spike_and_flat (debug : bool) (before after : list Q) :
  (exists b,
     dBeatMap (stateOf (runDetector defaultBeatParams debug freshDetector
                          (flat before ++ spike :: flat after))) = [b]
     /\ postProcess defaultBeatParams [b] = [b]
     /\ time b = 1 /\ 70 # 100 <= intensity b /\ intensity b <= 1)
  /\ (exists d,
        runDetector defaultBeatParams true freshDetector
          (flat before ++ spike :: flat after) = Returned d)
  /\ (exists d,
        runDetector defaultBeatParams debug freshDetector (flat before)
        = Returned d
        /\ dBeatMap d = []
        /\ postProcess defaultBeatParams (dBeatMap d) = []).
Proof.
  assert (Hrun : forall dbg l1 l2 d,
    runDetector defaultBeatParams dbg freshDetector l1 = Returned d ->
    runDetector defaultBeatParams dbg freshDetector (l1 ++ l2)
    = runDetector defaultBeatParams dbg d l2).
  { intros dbg l1 l2. generalize freshDetector.
    induction l1 as [ | s l1 IH ]; intros d0 d H; simpl in *.
    - now injection H as ->.
    - destruct (detectorStep defaultBeatParams dbg d0 s);
        [ now apply IH | discriminate ]. }
  assert (Hspike : forall dbg,
    exists b d0,
      stateOf (runDetector defaultBeatParams dbg freshDetector
                 (flat before ++ spike :: flat after)) = d0
      /\ dBeatMap d0 = [b]
      /\ (dbg = true ->
          runDetector defaultBeatParams dbg freshDetector
            (flat before ++ spike :: flat after) = Returned d0)
      /\ time b = 1 /\ 70 # 100 <= intensity b /\ intensity b <= 1).
  { intro dbg.
    destruct (flat_run dbg before freshDetector) as (d1 & H1 & Hm1 & Hl1 & He1);
      [ discriminate | ].
    rewrite (Hrun _ _ _ _ H1). cbn [runDetector].
    destruct (spike_step dbg d1 Hl1) as (b & Hm & He & Hs & Hb).
    exists b. rewrite Hs. rewrite Hm1 in Hm. simpl in Hm.
    destruct dbg.
    - destruct (flat_run true after
                  (stateOf (detectorStep defaultBeatParams true d1 spike)))
        as (d3 & H3 & Hm3 & _).
      { rewrite He. discriminate. }
      exists d3. rewrite H3. simpl. repeat split; try apply Hb; auto.
      congruence.
    - eexists. simpl. split; [ reflexivity | ].
      repeat split; try apply Hb; auto. discriminate. }
  split; [ | split ].
  - destruct (Hspike debug) as (b & d0 & Hst & Hm & _ & Hb).
    exists b. rewrite Hst. repeat split; try apply Hb; auto.
  - destruct (Hspike true) as (b & d0 & _ & _ & Hret & _).
    exists d0. now apply Hret.
  - destruct (flat_run debug before freshDetector) as (d1 & H1 & Hm1 & _);
      [ discriminate | ].
    exists d1. rewrite Hm1. repeat split; auto.
Qed.

(** ** C9: a run does not depend on what earlier runs left *)

(** The outcome of an analysis, and the map it leaves, are those of the
    same analysis on a manager holding any other map, history, threshold
    and [isAnalyzed] flag. *)
Lemma analysis_ignores_detection_state env m bm h t flag :
  let m0 := setIsAnalyzed flag
              (setBeatMap bm (setBeatHistory h (setDynamicThreshold t m))) in
  fst (analyzeFullTrack env m0) = fst (analyzeFullTrack env m)
  /\ (fst (analyzeFullTrack env m) <> Rejected ->
      beatMap (snd (analyzeFullTrack env m0))
      = beatMap (snd (analyzeFullTrack env m))).
Proof.
  destruct m. analysis_cases; split; congruence.
Qed.

Lemma analyzeInitialized_reads env m m' :
  hasElement m = hasElement m' ->
  beatParams m = beatParams m' ->
  debugDiv m = debugDiv m' ->
  fst (analyzeInitialized env m) = fst (analyzeInitialized env m')
  /\ beatMap (snd (analyzeInitialized env m))
     = beatMap (snd (analyzeInitialized env m')).
Proof.
  unfold hasElement, analyzeInitialized.
  unfold setDynamicThreshold, setBeatHistory, setBeatMap.
  cbn [audioElement beatParams debugDiv].
  intros He Hp Hd.
  destruct (audioElement m), (audioElement m'); try discriminate;
    [ | split; reflexivity ].
  rewrite Hp, Hd.
  destruct (analysisAudio env) as [ | | frames ended ];
    try (split; reflexivity).
  destruct (runDetector _ _ _ _); [ destruct ended | ]; split; reflexivity.
Qed.

Lemma analyzeInitialized_keeps env m :
  let m' := snd (analyzeInitialized env m) in
  hasElement m' = hasElement m
  /\ beatParams m' = beatParams m
  /\ debugDiv m' = debugDiv m
  /\ isInitialized m' = isInitialized m.
Proof.
  unfold hasElement, analyzeInitialized.
  unfold setDynamicThreshold, setBeatHistory, setBeatMap.
  cbn [audioElement beatParams debugDiv].
  destruct (audioElement m) eqn:Ea.
  - destruct (analysisAudio env) as [ | | frames ended ];
      [ cbn; auto | cbn; auto | ].
    match goal with
    | |- context [ runDetector ?p ?g ?d ?l ] => destruct (runDetector p g d l)
    end; [ destruct ended | ]; cbn; auto.
  - cbn. auto.
Qed.

Lemma initialize_done env m m1 :
  initialize env m = (Fulfilled tt, m1) ->
  isInitialized m1 = true /\ beatMap m1 = beatMap m.
Proof.
  unfold initialize.
  destruct (isInitialized m) eqn:Ei; [ intro H; injection H as <-; auto | ].
  destruct (audioUrl m); [ destruct (trackLoads env) | ];
    intro H; try discriminate; injection H as <-; auto.
Qed.

Lemma initialize_failed env m m1 :
  initialize env m = (Rejected, m1) ->
  initialize env m1 = (Rejected, m1) /\ beatMap m1 = beatMap m.
Proof.
  unfold initialize.
  destruct (isInitialized m) eqn:Ei; [ discriminate | ].
  destruct (audioUrl m) eqn:Eu; [ destruct (trackLoads env) eqn:El | ];
    intro H; try discriminate; injection H as <-.
  cbn. rewrite Ei, Eu. auto.
Qed.

Lemma initialize_never_pends env m m1 : initialize env m <> (Pending, m1).
Proof.
  unfold initialize.
  destruct (isInitialized m), (audioUrl m), (trackLoads env); discriminate.
Qed.

Lemma analyzeFullTrack_initialized env m :
  isInitialized m = true -> analyzeFullTrack env m = analyzeInitialized env m.
Proof.
  intro H. unfold analyzeFullTrack, initialize. now rewrite H.
Qed.

(** C9.  Analysing the same track twice gives the same outcome and the same
    beat map: the second run starts from the state the first one left, and
    a run gives the same result from any beat map, beat history, dynamic
    threshold and [isAnalyzed] flag the manager holds, its own [lastBeatTime]
    and [lastEnergy] starting at 0 each time. *)
Theorem analysis_idempotent env m :
  let first := analyzeFullTrack env m in
  let second := analyzeFullTrack env (snd first) in
  fst second = fst first
  /\ beatMap (snd second) = beatMap (snd first)
  /\ forall bm h t flag,
       let m0 := setIsAnalyzed flag
                   (setBeatMap bm
                      (setBeatHistory h (setDynamicThreshold t m))) in
       fst (analyzeFullTrack env m0) = fst first.
Proof.
  intros first second.
  assert (Htwice : fst second = fst first
                   /\ beatMap (snd second) = beatMap (snd first)).
  { subst first second.
    destruct (initialize env m) as [[ [] | | ] m1] eqn:Ei.
    - assert (E : analyzeFullTrack env m = analyzeInitialized env m1)
        by (unfold analyzeFullTrack; now rewrite Ei).
      rewrite E.
      destruct (initialize_done _ _ _ Ei) as [Hi _].
      destruct (analyzeInitialized_keeps env m1) as (He & Hp & Hd & Hi').
      rewrite analyzeFullTrack_initialized by congruence.
      now apply analyzeInitialized_reads.
    - assert (E : analyzeFullTrack env m = (Rejected, m1))
        by (unfold analyzeFullTrack; now rewrite Ei).
      rewrite E. cbn [snd fst].
      destruct (initialize_failed _ _ _ Ei) as [Hagain _].
      unfold analyzeFullTrack. rewrite Hagain. auto.
    - exfalso. exact (initialize_never_pends _ _ _ Ei). }
  destruct Htwice as [H1 H2]. split; [ exact H1 | split; [ exact H2 | ] ].
  intros bm h t flag m0.
  apply (analysis_ignores_detection_state env m bm h t flag).
Qed.

(** ** C10: the threshold state does not reach the beats *)

Lemma step_same p p' debug d d' s :
  sameBeatParams p p' -> sameBeatState d d' ->
  sameStep (detectorStep p debug d s) (detectorStep p' debug d' s).
Proof.
  intros (Hi & He & Hm) (Hl & Hle & Hb).
  unfold detectorStep, beatCandidate, beatIntensity, minBeatIntervalSec.
  rewrite Hi, He, Hm, Hl, Hle, Hb.
  destruct (_ && _); [ | repeat split; assumption ].
  destruct (Js.geb _ _); [ | repeat split; assumption ].
  destruct debug; repeat split; assumption.
Qed.

Lemma run_same p p' debug samples : forall d d',
  sameBeatParams p p' -> sameBeatState d d' ->
  sameStep (runDetector p debug d samples) (runDetector p' debug d' samples).
Proof.
  induction samples as [ | s rest IH ]; intros d d' Hp Hd; simpl.
  - exact Hd.
  - pose proof (step_same p p' debug d d' s Hp Hd) as Hs.
    destruct (detectorStep p debug d s), (detectorStep p' debug d' s);
      simpl in Hs; try contradiction.
    + now apply IH.
    + exact Hs.
Qed.

(** C10.  For every sample sequence, two runs of the detector from states
    that differ only in the beat history and the dynamic threshold (and
    under parameters that differ only in how these are computed) emit the
    same beats, end the same way and leave the same [lastBeatTime]. *)
Theorem threshold_state_noninterference p debug d samples h t range decay size :
  let r := runDetector p debug d samples in
  let r' := runDetector (withThresholdParams range decay size p) debug
              (withThresholdState h t d) samples in
  dBeatMap (stateOf r') = dBeatMap (stateOf r)
  /\ lastBeatTime (stateOf r') = lastBeatTime (stateOf r)
  /\ returned r' = returned r.
Proof.
  intros r r'.
  assert (H : sameStep r r').
  { apply run_same; repeat split. }
  destruct r, r'; simpl in *; try contradiction;
    destruct H as (Hl & _ & Hb); auto.
Qed.

(** ** Arming timers *)

Lemma enqueue_In t u q : In t (enqueue u q) <-> t = u \/ In t q.
Proof.
  induction q as [ | v q IH ]; simpl.
  - intuition.
  - destruct (Js.ltb (due u) (due v)); simpl; [ intuition | ].
    rewrite IH. intuition.
Qed.

Lemma enqueue_length u q : length (enqueue u q) = S (length q).
Proof.
  induction q as [ | v q IH ]; simpl; [ reflexivity | ].
  destruct (Js.ltb (due u) (due v)); simpl; congruence.
Qed.

(** Arming one timer per beat adds exactly those timers, each due [delay]
    after the present, and touches nothing else. *)
Lemma arm_each o (delay : Beat -> Q) beats : forall w,
  let w' := fold_left (fun acc b => setTimeout o b (delay b) acc) beats w in
  manager w' = manager w /\ clock w' = clock w /\ calls w' = calls w
  /\ length (timers w') = (length (timers w) + length beats)%nat
  /\ forall t,
       In t (timers w')
       <-> In t (timers w)
           \/ exists b, In b beats /\ t = mkTimer (clock w + delay b) o b.
Proof.
  induction beats as [ | b beats IH ]; intro w; simpl.
  - repeat split; auto; try lia.
    intros [ H | (b & [] & _) ]. exact H.
  - destruct (IH (setTimeout o b (delay b) w)) as (Hm & Hc & Hl & Hn & Hin).
    simpl in *. repeat split; try assumption.
    + rewrite Hn, enqueue_length. lia.
    + intro H. apply Hin in H. destruct H as [ H | (c & Hc' & ->) ].
      * apply enqueue_In in H. destruct H as [ -> | H ]; [ | now left ].
        right. exists b. auto.
      * right. exists c. auto.
    + intro H. apply Hin. destruct H as [ H | (c & [ <- | Hc' ] & ->) ].
      * left. apply enqueue_In. now right.
      * left. apply enqueue_In. now left.
      * right. exists c. auto.
Qed.

(** What the [try] block of [start] does when the context runs and the
    manager has an audio element. *)
Lemma startPlayback_arms env w a :
  contextResumes env = true ->
  audioElement (manager w) = Some a ->
  let r := startPlayback env w in
  fst r = Fulfilled (playStarts env)
  /\ isPlaying (manager (snd r)) = true
  /\ beatMap (manager (snd r)) = beatMap (manager w)
  /\ isAnalyzed (manager (snd r)) = isAnalyzed (manager w)
  /\ onBeatDetected (manager (snd r)) = onBeatDetected (manager w)
  /\ clock (snd r) = clock w
  /\ calls (snd r) = calls w
  /\ length (timers (snd r))
     = (length (timers w) + length (beatMap (manager w)))%nat
  /\ forall t,
       In t (timers (snd r))
       <-> In t (timers w)
           \/ exists b, In b (beatMap (manager w))
                        /\ t = mkTimer (clock w + time b * 1000) ByStart b.
Proof.
  intros Hc Ha. unfold startPlayback. rewrite Hc, Ha.
  set (m1 := setIsPlaying true _).
  destruct (arm_each ByStart (fun b => time b * 1000) (beatMap m1)
              (setManager m1 w)) as (Hm & Hk & Hs & Hn & Hin).
  fold (armAll (beatMap m1) (setManager m1 w)) in Hm, Hk, Hs, Hn, Hin.
  destruct (playStarts env); cbn [fst snd setManager manager clock calls timers];
    rewrite ?Hm; simpl in *; repeat split; auto; apply Hin.
Qed.

(** ** C5: [start] on a track that was not analysed *)

Lemma initialize_keeps_isAnalyzed env m :
  isAnalyzed (snd (initialize env m)) = isAnalyzed m.
Proof.
  unfold initialize.
  destruct (isInitialized m), (audioUrl m), (trackLoads env); reflexivity.
Qed.

Lemma fulfilled_has_element env m B m' :
  analyzeFullTrack env m = (Fulfilled B, m') ->
  exists a, audioElement m' = Some a.
Proof.
  unfold analyzeFullTrack.
  destruct (initialize env m) as [[ [] | | ] m1]; try discriminate.
  intro H. pose proof (analyzeInitialized_keeps env m1) as (He & _).
  rewrite H in He. cbn [snd] in He. unfold hasElement in He.
  destruct (audioElement m') as [a | ]; [ now exists a | ].
  unfold analyzeInitialized in H. cbn [setBeatMap audioElement] in H.
  destruct (audioElement m1); discriminate.
Qed.

(** [start] on an unanalysed manager goes by the analysis. *)
Lemma start_unanalyzed cb env w :
  isAnalyzed (manager w) = false ->
  start cb env w
  = match analyzeFullTrack env (manager w) with
    | (Fulfilled _, m2) =>
        startPlayback env (setManager (setOnBeatDetected cb m2) w)
    | (Rejected, m2) => (Rejected, setManager m2 w)
    | (Pending, m2) => (Pending, setManager m2 w)
    end.
Proof.
  intro Hn. unfold start.
  pose proof (initialize_keeps_isAnalyzed env (manager w)) as Hk.
  destruct (initialize env (manager w)) as [[ [] | | ] m1] eqn:Ei.
  - cbn [snd] in Hk. rewrite Hk, Hn.
    destruct (initialize_done _ _ _ Ei) as [Hi _].
    rewrite (analyzeFullTrack_initialized env m1 Hi).
    unfold analyzeFullTrack at 1. now rewrite Ei.
  - unfold analyzeFullTrack. now rewrite Ei.
  - exfalso. exact (initialize_never_pends _ _ _ Ei).
Qed.

(** How [start] on a manager whose track is not analysed goes, by the
    outcome of the analysis it runs first: if the analysis is fulfilled with
    the map [B], the manager is analysed and holds [B] when [start] goes on,
    and [start] arms one timer per event of [B]; if the analysis is rejected
    or never settles, so is [start], and it arms nothing.  Whether the
    analysis is fulfilled is not in the hands of [start]: see below. *)
Theorem start_analyzes_first cb env w :
  isAnalyzed (manager w) = false ->
  let r := start cb env w in
  match analyzeFullTrack env (manager w) with
  | (Fulfilled B, _) =>
      isAnalyzed (manager (snd r)) = true
      /\ beatMap (manager (snd r)) = B
      /\ (exists ok, fst r = Fulfilled ok)
      /\ (contextResumes env = true ->
          fst r = Fulfilled (playStarts env)
          /\ isPlaying (manager (snd r)) = true
          /\ length (timers (snd r)) = (length (timers w) + length B)%nat
          /\ forall t,
               In t (timers (snd r))
               <-> In t (timers w)
                   \/ exists b, In b B
                        /\ t = mkTimer (clock w + time b * 1000) ByStart b)
  | (Rejected, _) => fst r = Rejected /\ timers (snd r) = timers w
  | (Pending, _) => fst r = Pending /\ timers (snd r) = timers w
  end.
Proof.
  intros Hn r. subst r. rewrite (start_unanalyzed cb env w Hn).
  destruct (analyzeFullTrack env (manager w)) as [[ B | | ] m2] eqn:Ea;
    [ | split; reflexivity | split; reflexivity ].
  destruct (analyzeFullTrack_fulfilled _ _ _ _ Ea) as (_ & _ & _ & _ & _ & HB & HA).
  destruct (fulfilled_has_element _ _ _ _ Ea) as [a Hel].
  set (w0 := setManager (setOnBeatDetected cb m2) w).
  assert (Hel0 : audioElement (manager w0) = Some a) by exact Hel.
  destruct (contextResumes env) eqn:Ec.
  - destruct (startPlayback_arms env w0 a Ec Hel0)
      as (Hr & Hp & Hb & Hz & _ & _ & _ & Hlen & Hin).
    cbn [w0 setManager manager setOnBeatDetected beatMap isAnalyzed timers clock]
      in Hb, Hz, Hlen, Hin.
    rewrite HB in Hb, Hlen, Hin. rewrite HA in Hz.
    repeat split; try assumption; try apply Hin.
    exists (playStarts env). exact Hr.
  - unfold startPlayback. rewrite Ec. cbn [fst snd].
    repeat split; try assumption; try discriminate.
    exists false. reflexivity.
Qed.

Lemma start_analyzes_first_witness :
  isAnalyzed (manager demoWorld) = false
  /\ let r := start (Some 0%nat) demoBrowser demoWorld in
     isAnalyzed (manager (snd r)) = true
     /\ beatMap (manager (snd r)) = demoBeatMap
     /\ (exists ok, fst r = Fulfilled ok)
     /\ (contextResumes demoBrowser = true ->
         fst r = Fulfilled (playStarts demoBrowser)
         /\ isPlaying (manager (snd r)) = true
         /\ length (timers (snd r))
            = (length (timers demoWorld) + length demoBeatMap)%nat
         /\ forall t,
              In t (timers (snd r))
              <-> In t (timers demoWorld)
                  \/ exists b, In b demoBeatMap
                       /\ t = mkTimer (clock demoWorld + time b * 1000)
                                ByStart b).
Proof.
  split; [ reflexivity | ].
  pose proof (start_analyzes_first (Some 0%nat) demoBrowser demoWorld
                eq_refl) as H.
  cbv zeta in H. change (manager demoWorld) with demoManager in H.
  rewrite demo_analysis in H. exact H.
Defined.

(** C5, at a failing input.  On a host other than localhost the manager
    has no debug panel.  [start] on such a manager, its track not analysed,
    runs the analysis; at the first beat the frame handler pushes the beat
    and throws at the write to [this.debugDiv] (line 160), no further frame
    is requested and the promise of the analysis never settles.  So [start]
    never settles either: the track stays unanalysed, the map holds the one
    raw beat, no timer is armed, playback does not begin and no callback is
    ever invoked. *)
Example start_without_panel_never_settles :
  let r := start (Some 0%nat) demoBrowser remoteWorld in
  isAnalyzed (manager remoteWorld) = false
  /\ debugDiv (manager remoteWorld) = false
  /\ fst r = Pending
  /\ isAnalyzed (manager (snd r)) = false
  /\ beatMap (manager (snd r)) = [mkBeat 1 (2 # 2)]
  /\ timers (snd r) = []
  /\ isPlaying (manager (snd r)) = false
  /\ onBeatDetected (manager (snd r)) = None
  /\ calls (advance 5000 (snd r)) = [].
Proof. repeat split; vm_compute; reflexivity. Qed.

(** ** Playback sessions: pause, resume and a failed start *)

(** What [resume] arms when it goes through: one timer for each beat later
    than the audio position, due [beat.time - position] seconds from now. *)
Lemma resume_arms_later_beats env w a :
  audioElement (manager w) = Some a ->
  isAnalyzed (manager w) = true ->
  contextResumes env = true ->
  let w' := snd (resume env w) in
  forall t,
    In t (timers w')
    <-> In t (timers w)
        \/ exists b,
             In b (beatMap (manager w)) /\ currentTime a < time b
             /\ t = mkTimer (clock w + (time b - currentTime a) * 1000)
                      ByResume b.
Proof.
  intros Ha Hz Hc. unfold resume. rewrite Ha, Hz, Hc. cbn [negb].
  destruct (arm_each ByResume (fun b => (time b - currentTime a) * 1000)
              (filter (fun b => Js.gtb (time b) (currentTime a))
                 (beatMap (manager w))) w) as (_ & _ & _ & _ & Hin).
  fold (armAfter (currentTime a) (beatMap (manager w)) w) in Hin.
  assert (Hgoal : forall t,
    In t (timers (armAfter (currentTime a) (beatMap (manager w)) w))
    <-> In t (timers w)
        \/ exists b,
             In b (beatMap (manager w)) /\ currentTime a < time b
             /\ t = mkTimer (clock w + (time b - currentTime a) * 1000)
                      ByResume b).
  { intro t. rewrite Hin. split; (intros [ H | (b & Hb & Ht) ]; [ now left | ]).
    - apply filter_In in Hb. destruct Hb as [Hb Hgt]. apply gtb_true in Hgt.
      right. exists b. auto.
    - destruct Ht as [Hgt Ht]. right. exists b. split; [ | exact Ht ].
      apply filter_In. split; [ exact Hb | now apply gtb_true ]. }
  destruct (playStarts env); cbn [snd setManager timers]; exact Hgoal.
Qed.

(** C1, at a failing input.  Start, pause at 1.5 s, resume: the timer
    [start] armed for the beat at 2 s is still pending and fires once the
    manager plays again, and so does the timer [resume] armed for the same
    beat; the callback is invoked twice for it. *)
Example pause_resume_delivers_beat_twice :
  beatMap (manager started) = [mkBeat 1 (2 # 2); mkBeat 2 (2 # 2)]
  /\ map (fun c => (origin (source c), timerBeat (source c)))
       (calls pausedAndResumed)
     = [(ByStart, mkBeat 1 (2 # 2));
        (ByStart, mkBeat 2 (2 # 2));
        (ByResume, mkBeat 2 (2 # 2))].
Proof. split; vm_compute; reflexivity. Qed.

(** C8, at a failing input.  The closure [resume] arms passes one argument,
    the intensity; in the session above the third invocation has one. *)
Example resume_timer_passes_one_argument :
  (forall b, closureArgs ByResume b = [intensity b])
  /\ (forall b, closureArgs ByStart b = [intensity b; time b])
  /\ map (fun c => (origin (source c), length (args c)))
       (calls pausedAndResumed)
     = [(ByStart, 2%nat); (ByStart, 2%nat); (ByResume, 1%nat)].
Proof. repeat split. Qed.

(** C2, at a failing input.  When [play()] is refused, [start] is fulfilled
    with [false], both timers stay armed with [isPlaying] set, and a second
    later the callback is invoked for the first beat. *)
Example refused_start_still_fires :
  let r := start (Some 0%nat) playRefused demoWorld in
  fst r = Fulfilled false
  /\ isPlaying (manager (snd r)) = true
  /\ map timerBeat (timers (snd r)) = [mkBeat 1 (2 # 2); mkBeat 2 (2 # 2)]
  /\ map (fun c => timerBeat (source c)) (calls (advance 1000 (snd r)))
     = [mkBeat 1 (2 # 2)].
Proof. repeat split; vm_compute; reflexivity. Qed.

(** ** C7: obstacle spacing *)

(** The beat callback of that session is [Game.handleBeat] for the beat at
    1 s, called when the audio is at 0.4 s and the player at 4. *)
Lemma crowdedSession_beat g :
  handleBeat 10 (4 # 10) 4 [1; 1] g
  = generateObstacleOnBeat 1 (4 + 10 * (1 - (4 # 10))) g.
Proof. reflexivity. Qed.

(** C7 fails: in that session three obstacles are live, at 36, 45 and
    39.1, the first and the last 3.1 apart. *)
Lemma live_obstacles_too_close : ~ LiveSpread crowdedSession.
Proof.
  unfold LiveSpread. intro H.
  assert (Eq : map positionX (obstacleQueue crowdedSession)
               = [1 + 35; 10 + 35; (41 # 10) + 35])
    by (vm_compute; reflexivity).
  destruct (obstacleQueue crowdedSession) as [ | a [ | b [ | c [ | ] ] ] ];
    try discriminate.
  injection Eq as Ha Hb Hc.
  inversion H as [ | ? ? Hfa _ ]; subst.
  inversion Hfa as [ | ? ? _ Hfa' ]; subst.
  inversion Hfa' as [ | ? ? Hac _ ]; subst.
  rewrite Ha, Hc in Hac. vm_compute in Hac. apply Hac. reflexivity.
Qed.

Lemma last_any_default (l : list Q) : forall a x y,
  last (a :: l) x = last (a :: l) y.
Proof.
  induction l as [ | b l IH ]; intros a x y; [ reflexivity | ].
  change (last (b :: l) x = last (b :: l) y). apply IH.
Qed.

Lemma last_cons (z x : Q) l : last (z :: l) x = last l z.
Proof.
  destruct l as [ | b l ]; [ reflexivity | ].
  change (last (b :: l) x = last (b :: l) z). apply last_any_default.
Qed.

Lemma apart_snoc d l x y :
  Apart d (x :: l) -> d <= Js.abs (y - last l x) -> Apart d (x :: l ++ [y]).
Proof.
  revert x. induction l as [ | z l IH ]; intros x H Hy.
  - constructor; [ exact Hy | constructor ].
  - inversion H as [ | | ? ? ? Hxz Hl ]; subst.
    change (Apart d (x :: z :: l ++ [y])).
    constructor; [ exact Hxz | ]. apply IH; [ exact Hl | ].
    now rewrite <- (last_cons z x l).
Qed.

Lemma spawnPositions_app c1 c2 :
  spawnPositions (c1 ++ c2) = spawnPositions c1 ++ spawnPositions c2.
Proof.
  induction c1 as [ | [ o | o ] c1 IH ]; simpl; congruence.
Qed.

Lemma spawnPositions_removes l : spawnPositions (map SceneRemove l) = [].
Proof. induction l; simpl; auto. Qed.

Lemma spawn_inv d start pos i g :
  SpawnInv d start g -> farFromLast pos g = true ->
  SpawnInv d start (spawnObstacle pos i g).
Proof.
  intros (Hd & Ha & Hl) Hfar. unfold farFromLast in Hfar.
  apply geb_true in Hfar. rewrite Hd, Hl in Hfar.
  unfold SpawnInv, spawnObstacle, Js.push. cbn [minObstacleDistance scene
    lastObstaclePosition].
  rewrite spawnPositions_app. cbn [spawnPositions positionX].
  split; [ exact Hd | split ].
  - now apply apart_snoc.
  - now rewrite last_snoc.
Qed.

Lemma generate_inv d start i p g :
  SpawnInv d start g -> SpawnInv d start (generateObstacleOnBeat i p g).
Proof.
  intro H. unfold generateObstacleOnBeat.
  destruct (farFromLast _ g) eqn:E; [ now apply spawn_inv | exact H ].
Qed.

Lemma updatePlanned_inv d start now playerX entries : forall g,
  SpawnInv d start g ->
  SpawnInv d start (snd (updatePlanned now playerX entries g)).
Proof.
  induction entries as [ | [beatTime o] rest IH ]; intros g H; simpl;
    [ exact H | ].
  destruct (negb (spawned o) && _ && farFromLast _ g) eqn:E.
  - apply andb_true_iff in E. destruct E as [_ Hfar].
    specialize (IH _ (spawn_inv d start _ (plannedIntensity o) g H Hfar)).
    destruct (updatePlanned now playerX rest _). exact IH.
  - specialize (IH g H).
    destruct (updatePlanned now playerX rest g). exact IH.
Qed.

Lemma update_inv d start now playerX g :
  SpawnInv d start g -> SpawnInv d start (update now playerX g).
Proof.
  intro H. unfold update.
  pose proof (updatePlanned_inv d start now playerX (plannedObstacles g) g H)
    as H1.
  destruct (updatePlanned now playerX (plannedObstacles g) g) as [entries g1].
  destruct H1 as (Hd & Ha & Hl). unfold SpawnInv, despawn, setPlanned.
  cbn [minObstacleDistance scene lastObstaclePosition snd] in *.
  rewrite spawnPositions_app, spawnPositions_removes, app_nil_r. auto.
Qed.

Lemma levelRun_inv d start ops : forall g,
  SpawnInv d start g -> SpawnInv d start (levelRun ops g).
Proof.
  induction ops as [ | op ops IH ]; intros g H; [ exact H | ].
  apply IH. destruct op; [ now apply generate_inv | now apply update_inv ].
Qed.

(** C7, amended.  In a session that starts with a new generator and planned
    obstacles, each obstacle spawned, by the look-ahead pass or by the beat
    callback, is at least [minObstacleDistance] from the one spawned just
    before it (from 0 for the first), and [lastObstaclePosition] is the
    position of the newest spawn. *)
Theorem consecutive_spawns_apart speed beats ops :
  let g := levelRun ops (preplanObstacles speed beats newLevelGenerator) in
  Apart (minObstacleDistance g) (0 :: spawnPositions (scene g))
  /\ lastObstaclePosition g = last (spawnPositions (scene g)) 0
  /\ minObstacleDistance g = 5.
Proof.
  intro g.
  assert (H : SpawnInv 5 0 g).
  { apply levelRun_inv. repeat split. constructor. }
  destruct H as (Hd & Ha & Hl). rewrite Hd. auto.
Qed.

(** C2, amended.  When the manager is initialised and analysed and
    [audioElement.play()] is refused, [start] does not reject: it catches
    the failure and is fulfilled with [false]. *)
Theorem refused_play_returns_false cb env w :
  isInitialized (manager w) = true ->
  isAnalyzed (manager w) = true ->
  playStarts env = false ->
  fst (start cb env w) = Fulfilled false.
Proof.
  intros Hi Hz Hp. unfold start, initialize. rewrite Hi, Hz.
  unfold startPlayback.
  destruct (contextResumes env); [ | reflexivity ].
  destruct (audioElement _); [ | reflexivity ].
  now rewrite Hp.
Qed.

Lemma refused_play_returns_false_witness :
  isInitialized (manager started) = true
  /\ isAnalyzed (manager started) = true
  /\ playStarts playRefused = false
  /\ fst (start (Some 0%nat) playRefused started) = Fulfilled false.
Proof.
  split; [ reflexivity | ]. split; [ reflexivity | ].
  split; [ reflexivity | ].
  apply (refused_play_returns_false (Some 0%nat) playRefused started);
    reflexivity.
Defined.

(** * Further properties of the analysis *)

(** ** Runs of the detector, step by step *)

Lemma run_preserves (I : Detector -> Prop) p debug :
  (forall d s, I d -> I (stateOf (detectorStep p debug d s))) ->
  forall samples d, I d -> I (stateOf (runDetector p debug d samples)).
Proof.
  intros Hstep. induction samples as [ | s rest IH ]; intros d Hd; simpl;
    [ exact Hd | ].
  pose proof (Hstep d s Hd) as Hs.
  destruct (detectorStep p debug d s) as [d' | d']; simpl in *.
  - now apply IH.
  - exact Hs.
Qed.

Lemma In_insertBeat a b l : In b (insertBeat a l) <-> b = a \/ In b l.
Proof.
  induction l as [ | c l IH ]; simpl.
  - intuition.
  - destruct (Js.gtb (time a - time c) 0); simpl; [ | intuition ].
    rewrite IH. intuition.
Qed.

Lemma In_sortByTime b l : In b (sortByTime l) <-> In b l.
Proof.
  induction l as [ | a l IH ]; simpl; [ reflexivity | ].
  rewrite In_insertBeat, IH. intuition.
Qed.

Lemma Sublist_In small : forall big b,
  Sublist small big -> In b small -> In b big.
Proof.
  intros big. revert small.
  induction big as [ | c big IH ]; intros small b H Hb; simpl in H.
  - subst. contradiction.
  - destruct H as [ H | H ].
    + right. now apply (IH small).
    + destruct small as [ | a small ]; [ contradiction | ].
      destruct H as [-> H]. destruct Hb as [ -> | Hb ]; [ now left | ].
      right. now apply (IH small).
Qed.

Lemma In_postProcess p b l : In b (postProcess p l) -> In b l.
Proof.
  intro H. unfold postProcess in H.
  apply In_sortByTime.
  exact (Sublist_In _ _ _ (filterBeats_sublist p (sortByTime l)) H).
Qed.

(** A property of every raw beat of a run holds of every beat of the map. *)
Lemma generated_beats_from_run env m B m' (P : Beat -> Prop) :
  analyzeFullTrack env m = (Fulfilled B, m') ->
  (forall frames d,
     analysisAudio env = Plays frames true ->
     runDetector (beatParams m) (debugDiv m) freshDetector
       (map sampleOfFrame frames) = Returned d ->
     Forall P (dBeatMap d)) ->
  Forall P B.
Proof.
  intros H Hraw.
  destruct (analyzeFullTrack_fulfilled _ _ _ _ H)
    as (frames & d & Hplay & Hrun & HB & _).
  specialize (Hraw frames d Hplay Hrun). rewrite Forall_forall in *.
  intros b Hb. apply Hraw. subst B. exact (In_postProcess _ _ _ Hb).
Qed.

(** ** X1: the intensity of every beat *)

(** X1.  Every beat of a map the analysis generates has an intensity
    between [minBeatIntensity] and 1, when [minBeatIntensity] is at most 1. *)
Theorem generated_intensity_range env m B m' :
  minBeatIntensity (beatParams m) <= 1 ->
  analyzeFullTrack env m = (Fulfilled B, m') ->
  Forall (fun b => minBeatIntensity (beatParams m) <= intensity b
                   /\ intensity b <= 1) B.
Proof.
  intros Hle H. apply (generated_beats_from_run env m B m' _ H).
  intros frames d _ Hrun.
  pose proof (run_preserves
    (fun d => Forall (fun b => minBeatIntensity (beatParams m) <= intensity b
                               /\ intensity b <= 1) (dBeatMap d))
    (beatParams m) (debugDiv m)) as Hinv.
  replace d with (stateOf (runDetector (beatParams m) (debugDiv m)
                             freshDetector (map sampleOfFrame frames)))
    by now rewrite Hrun.
  apply Hinv; [ | constructor ].
  intros d0 s Hd0.
  destruct (beatCandidate (beatParams m) (totalEnergy s)
              (totalEnergy s - lastEnergy d0)
              (sampleTime s - lastBeatTime d0)) eqn:Ec.
  - destruct (detectorStep_hit _ (debugDiv m) d0 s Ec) as (Hm & _).
    rewrite Hm. apply Forall_app. split; [ exact Hd0 | ].
    constructor; [ | constructor ]. simpl. now apply intensity_bounds.
  - destruct (detectorStep_quiet _ (debugDiv m) d0 s Ec) as (d1 & -> & Hm & _).
    simpl. now rewrite Hm.
Qed.

Lemma generated_intensity_range_witness :
  minBeatIntensity (beatParams demoManager) <= 1
  /\ analyzeFullTrack demoBrowser demoManager
     = (Fulfilled demoBeatMap, snd (analyzeFullTrack demoBrowser demoManager))
  /\ Forall (fun b => minBeatIntensity (beatParams demoManager) <= intensity b
                      /\ intensity b <= 1) demoBeatMap.
Proof.
  split; [ discriminate | ]. split; [ vm_compute; reflexivity | ].
  apply (generated_intensity_range demoBrowser demoManager demoBeatMap
           (snd (analyzeFullTrack demoBrowser demoManager))).
  - discriminate.
  - vm_compute. reflexivity.
Defined.

(** ** X2: no beat in the first interval *)

(** X2.  No beat of a generated map is earlier than [minBeatInterval]
    (in seconds) after the start of the track: [lastBeatTime] starts at 0,
    so the debounce gate also holds back the first beat. *)
Theorem no_beat_in_first_interval env m B m' :
  0 <= minBeatInterval (beatParams m) ->
  analyzeFullTrack env m = (Fulfilled B, m') ->
  Forall (fun b => minBeatIntervalSec (beatParams m) <= time b) B.
Proof.
  intros Hpos H. apply (generated_beats_from_run env m B m' _ H).
  intros frames d _ Hrun.
  assert (Hgap : 0 <= minBeatIntervalSec (beatParams m)).
  { unfold minBeatIntervalSec. apply Qle_shift_div_l; [ reflexivity | ].
    now rewrite Qmult_0_l. }
  pose proof (run_preserves
    (fun d => 0 <= lastBeatTime d
              /\ Forall (fun b => minBeatIntervalSec (beatParams m) <= time b)
                   (dBeatMap d))
    (beatParams m) (debugDiv m)) as Hinv.
  replace d with (stateOf (runDetector (beatParams m) (debugDiv m)
                             freshDetector (map sampleOfFrame frames)))
    by now rewrite Hrun.
  apply Hinv; [ | split; [ discriminate | constructor ] ].
  intros d0 s [Hl Hd0].
  destruct (beatCandidate (beatParams m) (totalEnergy s)
              (totalEnergy s - lastEnergy d0)
              (sampleTime s - lastBeatTime d0)) eqn:Ec.
  - destruct (detectorStep_hit _ (debugDiv m) d0 s Ec) as (Hm & Ht & _).
    unfold beatCandidate in Ec. apply andb_true_iff in Ec.
    destruct Ec as [_ Eg]. apply geb_true in Eg.
    rewrite Hm, Ht. split; [ lra | ].
    apply Forall_app. split; [ exact Hd0 | ].
    constructor; [ simpl; lra | constructor ].
  - destruct (detectorStep_quiet _ (debugDiv m) d0 s Ec)
      as (d1 & -> & Hm & Ht & _).
    simpl. rewrite Hm, Ht. now split.
Qed.

Lemma no_beat_in_first_interval_witness :
  0 <= minBeatInterval (beatParams demoManager)
  /\ analyzeFullTrack demoBrowser demoManager
     = (Fulfilled demoBeatMap, snd (analyzeFullTrack demoBrowser demoManager))
  /\ Forall (fun b => minBeatIntervalSec (beatParams demoManager) <= time b)
       demoBeatMap.
Proof.
  split; [ discriminate | ]. split; [ vm_compute; reflexivity | ].
  apply (no_beat_in_first_interval demoBrowser demoManager demoBeatMap
           (snd (analyzeFullTrack demoBrowser demoManager))).
  - discriminate.
  - vm_compute. reflexivity.
Defined.

(** ** X3: every beat sits on a frame that passed the energy test *)

Lemma emitted_run p debug rest : forall before d,
  lastEnergy d = energyBefore before ->
  Forall (fun b => exists bf f af,
            before ++ rest = bf ++ f :: af /\ EmittedAt p bf f b)
    (dBeatMap d) ->
  Forall (fun b => exists bf f af,
            before ++ rest = bf ++ f :: af /\ EmittedAt p bf f b)
    (dBeatMap (stateOf (runDetector p debug d (map sampleOfFrame rest)))).
Proof.
  induction rest as [ | f rest IH ]; intros before d Hle Hd; [ exact Hd | ].
  cbn [map runDetector].
  assert (Hnext : forall d1,
    lastEnergy d1 = frameEnergy (dataArray f) ->
    Forall (fun b => exists bf f0 af,
              before ++ f :: rest = bf ++ f0 :: af /\ EmittedAt p bf f0 b)
      (dBeatMap d1) ->
    Forall (fun b => exists bf f0 af,
              before ++ f :: rest = bf ++ f0 :: af /\ EmittedAt p bf f0 b)
      (dBeatMap (stateOf (runDetector p debug d1 (map sampleOfFrame rest))))).
  { intros d1 He Hd1.
    replace (before ++ f :: rest) with ((before ++ [f]) ++ rest) in *
      by (rewrite <- app_assoc; reflexivity).
    apply IH; [ | exact Hd1 ].
    unfold energyBefore. rewrite map_app. cbn [map]. now rewrite last_snoc. }
  destruct (beatCandidate p (totalEnergy (sampleOfFrame f))
              (totalEnergy (sampleOfFrame f) - lastEnergy d)
              (sampleTime (sampleOfFrame f) - lastBeatTime d)) eqn:Ec.
  - destruct (detectorStep_hit p debug d (sampleOfFrame f) Ec)
      as (Hm & _ & He & Hs).
    assert (Hall : Forall (fun b => exists bf f0 af,
              before ++ f :: rest = bf ++ f0 :: af /\ EmittedAt p bf f0 b)
              (dBeatMap (stateOf (detectorStep p debug d (sampleOfFrame f))))).
    { rewrite Hm. apply Forall_app. split; [ exact Hd | ].
      constructor; [ | constructor ].
      exists before, f, rest. split; [ reflexivity | ].
      unfold EmittedAt. cbn [time intensity sampleOfFrame sampleTime
        totalEnergy] in *. rewrite <- Hle. repeat split.
      unfold beatCandidate in Ec. apply andb_true_iff in Ec.
      destruct Ec as [Eo _]. apply orb_true_iff in Eo.
      destruct Eo as [ E | E ]; apply gtb_true in E; auto. }
    rewrite Hs. destruct debug; cbn [stateOf]; [ | exact Hall ].
    apply Hnext; [ exact He | exact Hall ].
  - destruct (detectorStep_quiet p debug d (sampleOfFrame f) Ec)
      as (d1 & -> & Hm & _ & He).
    apply Hnext; [ exact He | now rewrite Hm ].
Qed.

(** X3.  Every beat of a generated map was emitted at one of the analysed
    frames: it has that frame's time, the frame's combined energy exceeded
    [energyThreshold] or rose by more than half of it over the frame
    before, and the beat's intensity is the one computed from that energy
    and that rise. *)
Theorem generated_beats_emitted_at_frames env m B m' frames :
  analyzeFullTrack env m = (Fulfilled B, m') ->
  analysisAudio env = Plays frames true ->
  Forall (fun b => exists before f after,
            frames = before ++ f :: after
            /\ EmittedAt (beatParams m) before f b) B.
Proof.
  intros H Hplay. apply (generated_beats_from_run env m B m' _ H).
  intros frames' d Hplay' Hrun.
  rewrite Hplay in Hplay'. injection Hplay' as <-.
  replace d with (stateOf (runDetector (beatParams m) (debugDiv m)
                             freshDetector (map sampleOfFrame frames)))
    by now rewrite Hrun.
  apply (emitted_run (beatParams m) (debugDiv m) frames [] freshDetector);
    [ reflexivity | constructor ].
Qed.

Lemma generated_beats_emitted_at_frames_witness :
  analyzeFullTrack demoBrowser demoManager
  = (Fulfilled demoBeatMap, snd (analyzeFullTrack demoBrowser demoManager))
  /\ Forall (fun b => exists before f after,
               [levelFrame 0 0; levelFrame 1 255; levelFrame (3 # 2) 0;
                levelFrame 2 255] = before ++ f :: after
               /\ EmittedAt (beatParams demoManager) before f b) demoBeatMap.
Proof.
  split; [ vm_compute; reflexivity | ].
  apply (generated_beats_emitted_at_frames demoBrowser demoManager demoBeatMap
           (snd (analyzeFullTrack demoBrowser demoManager))).
  - vm_compute. reflexivity.
  - reflexivity.
Defined.

(** ** X4: without the debug panel only an empty map is ever delivered *)

Lemma run_without_panel p samples : forall d d',
  runDetector p false d samples = Returned d' -> dBeatMap d' = dBeatMap d.
Proof.
  induction samples as [ | s rest IH ]; intros d d' H; simpl in H.
  - now injection H as <-.
  - destruct (beatCandidate p (totalEnergy s) (totalEnergy s - lastEnergy d)
                (sampleTime s - lastBeatTime d)) eqn:Ec.
    + destruct (detectorStep_hit p false d s Ec) as (_ & _ & _ & Hs).
      rewrite Hs in H. discriminate.
    + destruct (detectorStep_quiet p false d s Ec) as (d1 & E & Hm & _).
      rewrite E in H. rewrite <- Hm. now apply IH.
Qed.

(** X4.  On a manager without the debug panel (any host but localhost) the
    frame handler throws at the first beat it detects, so an analysis is
    fulfilled only when no beat was detected: the map it delivers is
    empty. *)
Theorem analysis_without_panel_delivers_empty env m B m' :
  debugDiv m = false ->
  analyzeFullTrack env m = (Fulfilled B, m') ->
  B = [].
Proof.
  intros Hd H.
  destruct (analyzeFullTrack_fulfilled _ _ _ _ H)
    as (frames & d & _ & Hrun & HB & _).
  rewrite Hd in Hrun. apply run_without_panel in Hrun.
  subst B. rewrite Hrun. reflexivity.
Qed.

Lemma analysis_without_panel_delivers_empty_witness :
  debugDiv remoteManager = false
  /\ analyzeFullTrack silentBrowser remoteManager
     = (Fulfilled [], snd (analyzeFullTrack silentBrowser remoteManager))
  /\ @nil Beat = [].
Proof.
  split; [ reflexivity | ]. split; [ vm_compute; reflexivity | ].
  apply (analysis_without_panel_delivers_empty silentBrowser remoteManager []
           (snd (analyzeFullTrack silentBrowser remoteManager))).
  - reflexivity.
  - vm_compute. reflexivity.
Defined.

(** ** X5 and X6: the combined energy of a frame *)

Lemma slice_firstn {A : Type} (i j n : nat) (l : list A) :
  (j <= n)%nat -> Js.slice i j (firstn n l) = Js.slice i j l.
Proof.
  intro H. unfold Js.slice.
  rewrite skipn_firstn_comm, firstn_firstn.
  f_equal. lia.
Qed.

(** X5.  The combined energy of a frame is read off its first twelve bins:
    the magnitudes of all other bins have no influence on it. *)
Theorem frameEnergy_reads_twelve_bins (data : list Z) :
  frameEnergy data = frameEnergy (firstn 12 data).
Proof.
  unfold frameEnergy.
  rewrite !(slice_firstn _ _ 12) by lia. reflexivity.
Qed.

Lemma byte_range (a : Z) :
  (0 <= a <= 255)%Z -> 0 <= inject_Z a /\ inject_Z a <= 255.
Proof.
  intros [H0 H1]. split.
  - change 0 with (inject_Z 0). now rewrite <- Zle_Qle.
  - change 255 with (inject_Z 255). now rewrite <- Zle_Qle.
Qed.

(** X6.  On a frame of at least twelve bins, each a byte, the combined
    energy lies between 0 and 270.3. *)
Theorem frameEnergy_range (data : list Z) :
  (12 <= length data)%nat ->
  Forall (fun a => (0 <= a <= 255)%Z) data ->
  0 <= frameEnergy data /\ frameEnergy data <= 2703 # 10.
Proof.
  intros Hlen Hall.
  do 12 (destruct data as [ | ? data ]; [ simpl in Hlen; lia | ]).
  repeat match goal with
    | H : Forall _ (_ :: _) |- _ =>
        let Hb := fresh "Hb" in
        let Hr := fresh "Hr" in
        inversion H as [ | ? ? Hb Hr ]; subst; clear H;
        apply byte_range in Hb
    end.
  unfold frameEnergy, bandMean, Js.slice, Js.sum, Js.len.
  cbn [skipn firstn Nat.sub map fold_left length].
  unfold Qdiv. change (/ inject_Z (Z.of_nat 4)) with (1 # 4).
  split; lra.
Qed.

Lemma frameEnergy_range_witness :
  (12 <= length (repeat 255%Z 12))%nat
  /\ Forall (fun a => (0 <= a <= 255)%Z) (repeat 255%Z 12)
  /\ 0 <= frameEnergy (repeat 255%Z 12)
  /\ frameEnergy (repeat 255%Z 12) <= 2703 # 10.
Proof.
  assert (Hlen : (12 <= length (repeat 255%Z 12))%nat) by (simpl; lia).
  assert (Hall : Forall (fun a => (0 <= a <= 255)%Z) (repeat 255%Z 12))
    by (simpl; repeat constructor; lia).
  split; [ exact Hlen | ]. split; [ exact Hall | ].
  exact (frameEnergy_range (repeat 255%Z 12) Hlen Hall).
Defined.

(** ** X7: the beat history is a bounded first-in first-out buffer *)

Lemma len_snoc (h : list Q) (e : Q) : Js.len (h ++ [e]) == Js.len h + 1.
Proof.
  unfold Js.len. rewrite length_app. simpl.
  rewrite Nat2Z.inj_add, inject_Z_plus. reflexivity.
Qed.

Lemma step_history p debug d s :
  dBeatHistory (stateOf (detectorStep p debug d s))
  = updateHistory p (dBeatHistory d) (totalEnergy s).
Proof.
  unfold detectorStep.
  destruct (beatCandidate _ _ _ _); [ | reflexivity ].
  destruct (Js.geb _ _); [ | reflexivity ].
  destruct debug; reflexivity.
Qed.

Lemma updateHistory_fifo p pushed h e :
  0 <= historySize p ->
  FifoOf (historySize p) pushed h ->
  FifoOf (historySize p) (pushed ++ [e]) (updateHistory p h e).
Proof.
  intros Hs (older & Hp & Hlen & Hfull). unfold updateHistory, Js.push.
  pose proof (len_snoc h e) as Hl.
  destruct (Js.gtb (Js.len (h ++ [e])) (historySize p)) eqn:E.
  - apply gtb_true in E. rewrite Hl in E.
    destruct h as [ | a h ].
    + exists (older ++ [e]). cbn [Js.shift tl app]. split.
      * subst pushed. now rewrite !app_nil_r.
      * split; [ exact Hs | right; exact E ].
    + exists (older ++ [a]). cbn [Js.shift tl app]. split.
      * subst pushed. rewrite <- !app_assoc. reflexivity.
      * pose proof (len_snoc h e) as Hl2.
        assert (Hc : Js.len (a :: h) == Js.len h + 1).
        { change (a :: h) with ([a] ++ h). unfold Js.len.
          rewrite length_app. simpl length.
          rewrite Nat2Z.inj_succ, <- Z.add_1_r, inject_Z_plus. reflexivity. }
        rewrite Hc in Hlen, E. rewrite Hl2. split; [ exact Hlen | ].
        right. lra.
  - apply gtb_false in E. rewrite Hl in E.
    exists older. split; [ subst pushed; now rewrite app_assoc | ].
    split; [ now rewrite Hl | ].
    destruct Hfull as [ -> | Hfull ]; [ now left | lra ].
Qed.

(** X7.  When a run of the detector returns, the beat history holds the
    combined energies of the newest samples in order: at most [historySize]
    of them, and all of the run's unless that many are held. *)
Theorem history_is_bounded_fifo p debug samples d :
  0 <= historySize p ->
  runDetector p debug freshDetector samples = Returned d ->
  FifoOf (historySize p) (map totalEnergy samples) (dBeatHistory d).
Proof.
  intros Hs.
  assert (Hgen : forall rest pushed d0 d1,
    FifoOf (historySize p) pushed (dBeatHistory d0) ->
    runDetector p debug d0 rest = Returned d1 ->
    FifoOf (historySize p) (pushed ++ map totalEnergy rest) (dBeatHistory d1)).
  { induction rest as [ | s rest IH ]; intros pushed d0 d1 Hf Hrun.
    - simpl in Hrun. injection Hrun as <-. now rewrite app_nil_r.
    - cbn [runDetector] in Hrun.
      pose proof (step_history p debug d0 s) as Hh.
      destruct (detectorStep p debug d0 s) as [d' | d'];
        [ | discriminate ].
      cbn [stateOf] in Hh.
      cbn [map]. change (totalEnergy s :: map totalEnergy rest)
        with ([totalEnergy s] ++ map totalEnergy rest).
      rewrite app_assoc. apply (IH _ d'); [ | exact Hrun ].
      rewrite Hh. now apply updateHistory_fifo. }
  intro Hrun. apply (Hgen samples [] freshDetector d); [ | exact Hrun ].
  exists []. split; [ reflexivity | ]. split; [ exact Hs | now left ].
Qed.

Lemma history_is_bounded_fifo_witness :
  0 <= historySize defaultBeatParams
  /\ FifoOf (historySize defaultBeatParams)
       (map totalEnergy (flat [0; 1; 2]))
       (dBeatHistory
          (stateOf (runDetector defaultBeatParams true freshDetector
                      (flat [0; 1; 2])))).
Proof.
  split; [ discriminate | ].
  apply (history_is_bounded_fifo defaultBeatParams true (flat [0; 1; 2])).
  - discriminate.
  - reflexivity.
Defined.

(** * Further properties of playback *)

(** ** X8: uninterrupted playback *)

Lemma enqueue_last t q :
  Forall (fun u => due u <= due t) q -> enqueue t q = q ++ [t].
Proof.
  induction 1 as [ | u q Hu Hq IH ]; [ reflexivity | ].
  simpl. assert (E : Js.ltb (due t) (due u) = false).
  { unfold Js.ltb. apply negb_false_iff. now apply Qle_bool_iff. }
  rewrite E, IH. reflexivity.
Qed.

Lemma pairs_before (R : Beat -> Beat -> Prop) before b rest a :
  ForallOrdPairs R (before ++ b :: rest) -> In a before -> R a b.
Proof.
  induction before as [ | c before IH ]; intros H Ha; [ contradiction | ].
  inversion H as [ | ? ? Hc Hrest ]; subst.
  destruct Ha as [ -> | Ha ]; [ | now apply IH ].
  rewrite Forall_forall in Hc. apply Hc.
  apply in_or_app. right. now left.
Qed.

(** Beats in time order are queued in the order of the map. *)
Lemma armAll_in_order rest : forall before w,
  timers w = map (startTimer (clock w)) before ->
  ForallOrdPairs (fun a b => 0 <= time b - time a) (before ++ rest) ->
  timers (armAll rest w) = map (startTimer (clock w)) (before ++ rest)
  /\ manager (armAll rest w) = manager w
  /\ clock (armAll rest w) = clock w
  /\ calls (armAll rest w) = calls w.
Proof.
  induction rest as [ | b rest IH ]; intros before w Ht Hord.
  - rewrite app_nil_r. auto.
  - change (armAll (b :: rest) w)
      with (armAll rest (setTimeout ByStart b (time b * 1000) w)).
    set (w1 := setTimeout ByStart b (time b * 1000) w).
    assert (Hq : timers w1 = map (startTimer (clock w)) (before ++ [b])).
    { unfold w1, setTimeout. cbn [timers]. rewrite Ht, map_app. cbn [map].
      apply enqueue_last. apply Forall_forall. intros u Hu.
      apply in_map_iff in Hu. destruct Hu as (a & <- & Ha).
      pose proof (pairs_before _ _ _ _ _ Hord Ha) as Hab.
      unfold startTimer. cbn [due]. simpl in Hab. lra. }
    destruct (IH (before ++ [b]) w1) as (H1 & H2 & H3 & H4).
    + exact Hq.
    + now rewrite <- app_assoc.
    + rewrite <- app_assoc in H1. cbn [app] in H1.
      repeat split; assumption.
Qed.

Lemma fire_all_playing cb l : forall w,
  isPlaying (manager w) = true ->
  onBeatDetected (manager w) = Some cb ->
  let w' := fold_left (fun acc t => fire t acc) l w in
  calls w' = calls w ++ map (invocationOf cb) l
  /\ manager w' = manager w /\ timers w' = timers w /\ clock w' = clock w.
Proof.
  induction l as [ | t l IH ]; intros w Hp Hcb; simpl.
  - rewrite app_nil_r. auto.
  - assert (Hf : fire t w
                 = mkWorld (manager w) (clock w) (timers w)
                     (calls w ++ [invocationOf cb t])).
    { unfold fire. now rewrite Hp, Hcb. }
    rewrite Hf.
    destruct (IH (mkWorld (manager w) (clock w) (timers w)
                    (calls w ++ [invocationOf cb t])) Hp Hcb)
      as (H1 & H2 & H3 & H4).
    cbn [calls manager timers clock] in *.
    rewrite H1, <- app_assoc. auto.
Qed.

Lemma filter_map_swap {A B : Type} (f : A -> B) (g : B -> bool) l :
  filter g (map f l) = map f (filter (fun a => g (f a)) l).
Proof.
  induction l as [ | a l IH ]; simpl; [ reflexivity | ].
  destruct (g (f a)); simpl; congruence.
Qed.

Lemma start_ready cb env w :
  isInitialized (manager w) = true ->
  isAnalyzed (manager w) = true ->
  start cb env w
  = startPlayback env (setManager (setOnBeatDetected cb (manager w)) w).
Proof.
  intros Hi Hz. unfold start, initialize. now rewrite Hi, Hz.
Qed.

Lemma startPlayback_queue env w a :
  contextResumes env = true ->
  playStarts env = true ->
  audioElement (manager w) = Some a ->
  timers w = [] ->
  GapChain 0 (beatMap (manager w)) ->
  let w' := snd (startPlayback env w) in
  timers w' = map (startTimer (clock w)) (beatMap (manager w))
  /\ clock w' = clock w /\ calls w' = calls w
  /\ isPlaying (manager w') = true
  /\ onBeatDetected (manager w') = onBeatDetected (manager w).
Proof.
  intros Hc Hp Ha Ht Hord. unfold startPlayback. rewrite Hc, Ha, Hp.
  set (m1 := setIsPlaying true _). cbn [snd].
  destruct (armAll_in_order (beatMap m1) [] (setManager m1 w)) as
    (Hq & Hm & Hk & Hs).
  { cbn [setManager timers]. now rewrite Ht. }
  { cbn [app]. apply chain_pairs; [ apply Qle_refl | exact Hord ]. }
  cbn [app setManager clock calls manager] in Hq, Hm, Hk, Hs.
  cbn [setManager timers clock calls manager]. rewrite Hm.
  repeat split; assumption.
Qed.

Lemma advance_playing cb ms w :
  isPlaying (manager w) = true ->
  onBeatDetected (manager w) = Some cb ->
  calls (advance ms w)
  = calls w
    ++ map (invocationOf cb)
         (filter (fun t => Qle_bool (due t) (clock w + ms)) (timers w)).
Proof.
  intros Hp Hcb. unfold advance. cbn [calls].
  set (later := filter (fun t => negb (Qle_bool (due t) (clock w + ms)))
                  (timers w)).
  destruct (fire_all_playing cb
              (filter (fun t => Qle_bool (due t) (clock w + ms)) (timers w))
              (mkWorld (manager w) (clock w) later (calls w)) Hp Hcb)
    as (H & _).
  exact H.
Qed.

(** X8.  Uninterrupted playback: when [start] goes through on an analysed
    track whose beats are in time order, with no timer pending, then after
    any stretch of time the callback has been invoked exactly once for each
    beat due by then and for no other, in the order of the map, each time
    with the beat's intensity and time. *)
Theorem uninterrupted_playback_delivers_due_beats cb env w a ms :
  isInitialized (manager w) = true ->
  isAnalyzed (manager w) = true ->
  audioElement (manager w) = Some a ->
  contextResumes env = true ->
  playStarts env = true ->
  timers w = [] ->
  GapChain 0 (beatMap (manager w)) ->
  calls (advance ms (snd (start (Some cb) env w)))
  = calls w
    ++ map (fun b => invocationOf cb (startTimer (clock w) b))
         (filter (fun b => Qle_bool (time b * 1000) ms) (beatMap (manager w)))
  /\ forall b, args (invocationOf cb (startTimer (clock w) b))
               = [intensity b; time b].
Proof.
  intros Hi Hz Ha Hc Hp Ht Hord. split; [ | reflexivity ].
  rewrite (start_ready (Some cb) env w Hi Hz).
  set (w0 := setManager (setOnBeatDetected (Some cb) (manager w)) w).
  destruct (startPlayback_queue env w0 a Hc Hp Ha Ht Hord)
    as (Hq & Hk & Hs & Hpl & Hcb).
  rewrite (advance_playing cb ms _ Hpl Hcb), Hq, Hk, Hs.
  change (clock w0) with (clock w). change (calls w0) with (calls w).
  change (beatMap (manager w0)) with (beatMap (manager w)).
  f_equal. rewrite filter_map_swap, map_map.
  f_equal. apply filter_ext. intro b. unfold startTimer. cbn [due].
  destruct (Qle_bool (time b * 1000) ms) eqn:E.
  - apply Qle_bool_iff. apply Qle_bool_iff in E. lra.
  - destruct (Qle_bool (clock w + time b * 1000) (clock w + ms)) eqn:E2;
      [ | reflexivity ].
    apply Qle_bool_iff in E2.
    assert (E3 : Qle_bool (time b * 1000) ms = true)
      by (apply Qle_bool_iff; lra).
    congruence.
Qed.

Lemma uninterrupted_playback_delivers_due_beats_witness :
  isInitialized (manager readyWorld) = true
  /\ isAnalyzed (manager readyWorld) = true
  /\ audioElement (manager readyWorld) = Some (mkAudioElement 0 true)
  /\ contextResumes demoBrowser = true
  /\ playStarts demoBrowser = true
  /\ timers readyWorld = []
  /\ GapChain 0 (beatMap (manager readyWorld))
  /\ calls (advance 1500 (snd (start (Some 0%nat) demoBrowser readyWorld)))
     = calls readyWorld
       ++ map (fun b => invocationOf 0%nat (startTimer (clock readyWorld) b))
            (filter (fun b => Qle_bool (time b * 1000) 1500)
               (beatMap (manager readyWorld))).
Proof.
  assert (Hord : GapChain 0 (beatMap (manager readyWorld))).
  { change (GapChain 0 [mkBeat 1 (2 # 2); mkBeat 2 (2 # 2)]).
    constructor; [ discriminate | constructor ]. }
  repeat (split; [ reflexivity | ]). split; [ exact Hord | ].
  apply (uninterrupted_playback_delivers_due_beats 0%nat demoBrowser
           readyWorld (mkAudioElement 0 true) 1500);
    try reflexivity. exact Hord.
Defined.

(** ** X9: nothing is delivered while the manager does not play *)

Lemma fire_all_idle l : forall w,
  isPlaying (manager w) = false ->
  fold_left (fun acc t => fire t acc) l w = w.
Proof.
  induction l as [ | t l IH ]; intros w Hp; simpl; [ reflexivity | ].
  assert (Hf : fire t w = w) by (unfold fire; now rewrite Hp).
  rewrite Hf. now apply IH.
Qed.

Lemma advance_idle ms w :
  isPlaying (manager w) = false ->
  calls (advance ms w) = calls w
  /\ timers (advance ms w) = pendingAfter (clock w + ms) (timers w).
Proof.
  intro Hp. unfold advance. cbn [calls timers].
  rewrite fire_all_idle by exact Hp. split; reflexivity.
Qed.

(** X9.  After [pause()] or [stop()] no callback is invoked, however long
    the clock runs: neither cancels a timer, but the closures of the timers
    that come due find [isPlaying] false, and those timers are spent. *)
Theorem paused_or_stopped_is_silent w ms :
  (timers (pause w) = timers w
   /\ calls (advance ms (pause w)) = calls w
   /\ timers (advance ms (pause w)) = pendingAfter (clock w + ms) (timers w))
  /\ (timers (stop w) = timers w
      /\ calls (advance ms (stop w)) = calls w
      /\ timers (advance ms (stop w))
         = pendingAfter (clock w + ms) (timers w)).
Proof.
  assert (Hp : isPlaying (manager (pause w)) = false
               /\ timers (pause w) = timers w /\ calls (pause w) = calls w
               /\ clock (pause w) = clock w).
  { unfold pause. cbn [setIsPlaying audioElement].
    destruct (audioElement (manager w)); repeat split. }
  assert (Hs : isPlaying (manager (stop w)) = false
               /\ timers (stop w) = timers w /\ calls (stop w) = calls w
               /\ clock (stop w) = clock w).
  { unfold stop. cbn [setIsPlaying audioElement].
    destruct (audioElement (manager w)); repeat split. }
  destruct Hp as (Hp1 & Hp2 & Hp3 & Hp4).
  destruct Hs as (Hs1 & Hs2 & Hs3 & Hs4).
  destruct (advance_idle ms (pause w) Hp1) as [Ha Hb].
  destruct (advance_idle ms (stop w) Hs1) as [Hc Hd].
  rewrite Ha, Hb, Hc, Hd, Hp2, Hp3, Hp4, Hs2, Hs3, Hs4.
  repeat split.
Qed.

(** ** X10: what [resume] arms *)

(** X10.  When [resume] goes through on an analysed track it arms one timer
    for each beat later than the audio position, due the beat's time minus
    that position from now, and none for the other beats; the timers already
    pending stay.  When [play()] is then refused the call is rejected with
    these timers armed and [isPlaying] as it was. *)
Theorem resume_rearms_later_beats env w a :
  audioElement (manager w) = Some a ->
  isAnalyzed (manager w) = true ->
  contextResumes env = true ->
  let r := resume env w in
  let later := filter (fun b => Js.gtb (time b) (currentTime a))
                 (beatMap (manager w)) in
  (forall t,
     In t (timers (snd r))
     <-> In t (timers w)
         \/ exists b,
              In b (beatMap (manager w)) /\ currentTime a < time b
              /\ t = resumeTimer (clock w) (currentTime a) b)
  /\ length (timers (snd r)) = (length (timers w) + length later)%nat
  /\ (playStarts env = true ->
      fst r = Fulfilled tt /\ isPlaying (manager (snd r)) = true)
  /\ (playStarts env = false ->
      fst r = Rejected
      /\ isPlaying (manager (snd r)) = isPlaying (manager w)).
Proof.
  intros Ha Hz Hc r later. subst r later. unfold resume.
  rewrite Ha, Hz, Hc. cbn [negb].
  destruct (arm_each ByResume (fun b => (time b - currentTime a) * 1000)
              (filter (fun b => Js.gtb (time b) (currentTime a))
                 (beatMap (manager w))) w) as (Hm & _ & _ & Hn & Hin).
  fold (armAfter (currentTime a) (beatMap (manager w)) w) in Hm, Hn, Hin.
  assert (Hgoal : forall t,
    In t (timers (armAfter (currentTime a) (beatMap (manager w)) w))
    <-> In t (timers w)
        \/ exists b,
             In b (beatMap (manager w)) /\ currentTime a < time b
             /\ t = resumeTimer (clock w) (currentTime a) b).
  { intro t. rewrite Hin. unfold resumeTimer.
    split; (intros [ H | (b & Hb & Ht) ]; [ now left | ]).
    - apply filter_In in Hb. destruct Hb as [Hb Hgt]. apply gtb_true in Hgt.
      right. exists b. auto.
    - destruct Ht as [Hgt Ht]. right. exists b. split; [ | exact Ht ].
      apply filter_In. split; [ exact Hb | now apply gtb_true ]. }
  destruct (playStarts env); cbn [fst snd setManager timers manager];
    (split; [ exact Hgoal | ]); (split; [ exact Hn | ]);
    split; intro E; try discriminate; split; try reflexivity.
  now rewrite Hm.
Qed.

Lemma resume_rearms_later_beats_witness :
  audioElement (manager pausedSession)
  = Some (mkAudioElement (0 + 1500 / 1000) true)
  /\ isAnalyzed (manager pausedSession) = true
  /\ contextResumes demoBrowser = true
  /\ length (timers (snd (resume demoBrowser pausedSession)))
     = (length (timers pausedSession)
        + length (filter (fun b => Js.gtb (time b) (0 + 1500 / 1000))
                    (beatMap (manager pausedSession))))%nat.
Proof.
  split; [ reflexivity | ]. split; [ reflexivity | ].
  split; [ reflexivity | ].
  apply (resume_rearms_later_beats demoBrowser pausedSession
           (mkAudioElement (0 + 1500 / 1000) true)); reflexivity.
Defined.

(** ** X11: stop, resume and start together *)

Lemma resume_keeps env w :
  let w' := snd (resume env w) in
  isInitialized (manager w') = isInitialized (manager w)
  /\ isAnalyzed (manager w') = isAnalyzed (manager w)
  /\ beatMap (manager w') = beatMap (manager w)
  /\ hasElement (manager w') = hasElement (manager w)
  /\ clock w' = clock w.
Proof.
  unfold resume, hasElement.
  destruct (audioElement (manager w)) as [a | ] eqn:Ea; cbn [snd];
    [ | rewrite Ea; auto ].
  destruct (negb (isAnalyzed (manager w))); cbn [snd];
    [ rewrite Ea; auto | ].
  destruct (contextResumes env); cbn [snd]; [ | rewrite Ea; auto ].
  destruct (arm_each ByResume (fun b => (time b - currentTime a) * 1000)
              (filter (fun b => Js.gtb (time b) (currentTime a))
                 (beatMap (manager w))) w) as (Hm & Hk & _).
  fold (armAfter (currentTime a) (beatMap (manager w)) w) in Hm, Hk.
  destruct (playStarts env); cbn [snd setManager manager clock];
    rewrite ?Hm, ?Hk; cbn; rewrite ?Ea; auto.
Qed.

(** X11.  [stop()] rewinds the audio to 0, so a [resume()] after it arms a
    timer for every beat later than 0, at the beat's full time from now;
    a [start] that follows arms its own timer for every beat: the sequence
    stop, resume, start, which is what retrying a game runs, leaves two
    timers due at the same moment for each such beat. *)
Theorem stop_resume_start_arms_twice cb env1 env2 w a b :
  isInitialized (manager w) = true ->
  isAnalyzed (manager w) = true ->
  audioElement (manager w) = Some a ->
  contextResumes env1 = true ->
  contextResumes env2 = true ->
  In b (beatMap (manager w)) ->
  0 < time b ->
  let w' := snd (start cb env2 (snd (resume env1 (stop w)))) in
  In (resumeTimer (clock w) 0 b) (timers w')
  /\ In (startTimer (clock w) b) (timers w')
  /\ due (resumeTimer (clock w) 0 b) == due (startTimer (clock w) b).
Proof.
  intros Hi Hz Ha Hc1 Hc2 Hb Hpos w'.
  assert (Hstop : audioElement (manager (stop w))
                  = Some (mkAudioElement 0 true)
                  /\ isAnalyzed (manager (stop w)) = true
                  /\ isInitialized (manager (stop w)) = true
                  /\ beatMap (manager (stop w)) = beatMap (manager w)
                  /\ clock (stop w) = clock w).
  { unfold stop. cbn [setIsPlaying audioElement]. rewrite Ha. cbn.
    auto. }
  destruct Hstop as (Hs1 & Hs2 & Hs3 & Hs4 & Hs5).
  set (w1 := snd (resume env1 (stop w))) in *.
  assert (Hres : In (resumeTimer (clock w) 0 b) (timers w1)).
  { subst w1. unfold resume. rewrite Hs1, Hs2, Hc1. cbn [negb currentTime].
    destruct (arm_each ByResume (fun b0 => (time b0 - 0) * 1000)
                (filter (fun b0 => Js.gtb (time b0) 0)
                   (beatMap (manager (stop w)))) (stop w))
      as (_ & _ & _ & _ & Hin).
    fold (armAfter 0 (beatMap (manager (stop w))) (stop w)) in Hin.
    assert (Hgoal : In (resumeTimer (clock w) 0 b)
                      (timers (armAfter 0 (beatMap (manager (stop w)))
                                 (stop w)))).
    { apply Hin. right. exists b. split.
      - apply filter_In. split; [ now rewrite Hs4 | now apply gtb_true ].
      - unfold resumeTimer. now rewrite Hs5. }
    destruct (playStarts env1); cbn [snd setManager timers]; exact Hgoal. }
  destruct (resume_keeps env1 (stop w)) as (Hk1 & Hk2 & Hk3 & Hk4 & Hk5).
  fold w1 in Hk1, Hk2, Hk3, Hk4, Hk5.
  rewrite Hs3 in Hk1. rewrite Hs2 in Hk2. rewrite Hs4 in Hk3.
  unfold hasElement in Hk4. rewrite Hs1 in Hk4. rewrite Hs5 in Hk5.
  destruct (audioElement (manager w1)) as [a1 | ] eqn:Ea1;
    [ | discriminate ].
  subst w'. rewrite (start_ready cb env2 w1 Hk1 Hk2).
  set (w2 := setManager (setOnBeatDetected cb (manager w1)) w1).
  destruct (startPlayback_arms env2 w2 a1 Hc2 Ea1)
    as (_ & _ & _ & _ & _ & _ & _ & _ & Hin).
  split; [ | split ].
  - apply Hin. left. exact Hres.
  - apply Hin. right. exists b. split.
    + change (beatMap (manager w2)) with (beatMap (manager w1)).
      now rewrite Hk3.
    + unfold startTimer. change (clock w2) with (clock w1).
      now rewrite Hk5.
  - unfold resumeTimer, startTimer. cbn [due]. ring.
Qed.

Lemma stop_resume_start_arms_twice_witness :
  isInitialized (manager started) = true
  /\ isAnalyzed (manager started) = true
  /\ audioElement (manager started) = Some (mkAudioElement 0 false)
  /\ contextResumes demoBrowser = true
  /\ In (mkBeat 2 (2 # 2)) (beatMap (manager started))
  /\ 0 < time (mkBeat 2 (2 # 2))
  /\ let w' := snd (start (Some 0%nat) demoBrowser
                      (snd (resume demoBrowser (stop started)))) in
     In (resumeTimer (clock started) 0 (mkBeat 2 (2 # 2))) (timers w')
     /\ In (startTimer (clock started) (mkBeat 2 (2 # 2))) (timers w').
Proof.
  assert (Hb : In (mkBeat 2 (2 # 2)) (beatMap (manager started))).
  { change (In (mkBeat 2 (2 # 2)) [mkBeat 1 (2 # 2); mkBeat 2 (2 # 2)]).
    right. left. reflexivity. }
  repeat (split; [ reflexivity | ]). split; [ exact Hb | ].
  split; [ reflexivity | ].
  pose proof (stop_resume_start_arms_twice (Some 0%nat) demoBrowser
                demoBrowser started (mkAudioElement 0 false)
                (mkBeat 2 (2 # 2)) eq_refl eq_refl eq_refl eq_refl eq_refl
                Hb eq_refl) as H.
  cbv zeta in H. destruct H as (H1 & H2 & _). split; assumption.
Defined.

(** ** X12: [start] before a track is set *)

(** X12.  On a manager that has no track and no audio element and is not
    analysed, [start] is rejected whatever the browser does: initialization
    succeeds without creating an audio element, and the analysis it then
    runs fails on the missing element.  No timer is armed and neither
    [isPlaying] nor the registered callback changes. *)
Theorem start_without_track_rejects cb env w :
  audioUrl (manager w) = false ->
  audioElement (manager w) = None ->
  isAnalyzed (manager w) = false ->
  let r := start cb env w in
  fst r = Rejected
  /\ timers (snd r) = timers w
  /\ calls (snd r) = calls w
  /\ isPlaying (manager (snd r)) = isPlaying (manager w)
  /\ onBeatDetected (manager (snd r)) = onBeatDetected (manager w)
  /\ isAnalyzed (manager (snd r)) = false.
Proof.
  intros Hu He Hz. destruct w as [m c ts cs]. destruct m.
  cbn in Hu, He, Hz. subst.
  unfold start, analyzeFullTrack, initialize, analyzeInitialized.
  destruct isInitialized0; cbn; repeat split.
Qed.

Lemma start_without_track_rejects_witness :
  audioUrl (manager blankWorld) = false
  /\ audioElement (manager blankWorld) = None
  /\ isAnalyzed (manager blankWorld) = false
  /\ fst (start (Some 0%nat) demoBrowser blankWorld) = Rejected.
Proof.
  repeat (split; [ reflexivity | ]).
  apply (start_without_track_rejects (Some 0%nat) demoBrowser blankWorld);
    reflexivity.
Defined.

(** * Further properties of the level generator *)

(** ** X13 and X14: what [preplanObstacles] plans *)

Lemma mapSet_fresh k v pl :
  Forall (fun e => fst e < k) pl -> mapSet k v pl = pl ++ [(k, v)].
Proof.
  induction 1 as [ | [k' v'] pl Hk Hpl IH ]; [ reflexivity | ].
  simpl in *. destruct (Qeq_bool k' k) eqn:E.
  - apply Qeq_bool_iff in E. rewrite E in Hk.
    exfalso. exact (Qlt_irrefl _ Hk).
  - now rewrite IH.
Qed.

Lemma preplanLoop_spec speed sd beats : forall last pl,
  match last with
  | None => pl = []
  | Some l => Forall (fun e => fst e <= l) pl
  end ->
  preplanLoop speed sd last beats pl
  = pl ++ map (plannedFor speed sd) (keptBeats last beats).
Proof.
  induction beats as [ | b rest IH ]; intros last pl Hpl.
  - simpl. now rewrite app_nil_r.
  - assert (Hkeep : forall pl0,
      Forall (fun e => fst e < time b) pl0 ->
      preplanLoop speed sd (Some (time b)) rest
        (mapSet (time b)
           (mkPlanned (sd + speed * time b) (intensity b) false) pl0)
      = pl0 ++ map (plannedFor speed sd)
                 (b :: keptBeats (Some (time b)) rest)).
    { intros pl0 Hlt. rewrite (mapSet_fresh _ _ _ Hlt).
      rewrite IH.
      - rewrite <- app_assoc. reflexivity.
      - apply Forall_app. split.
        + revert Hlt. apply Forall_impl. intros e. apply Qlt_le_weak.
        + constructor; [ apply Qle_refl | constructor ]. }
    destruct last as [l | ]; cbn [preplanLoop keptBeats].
    + destruct (Js.geb (time b - l) (2 # 10)) eqn:E.
      * apply Hkeep. apply geb_true in E.
        revert Hpl. apply Forall_impl. intros e He. lra.
      * now apply IH.
    + subst pl. apply (Hkeep []). constructor.
Qed.

Lemma preplan_entries speed beats g :
  plannedObstacles (preplanObstacles speed beats g)
  = map (plannedFor speed (spawnDistance g)) (keptBeats None beats).
Proof.
  unfold preplanObstacles. cbn [setPlanned plannedObstacles].
  now rewrite (preplanLoop_spec speed (spawnDistance g) beats None []).
Qed.

Lemma kept_spaced beats : forall last,
  ForallOrdPairs (fun a b => 2 # 10 <= time b - time a)
    (keptBeats last beats)
  /\ Forall (fun b => In b beats
                      /\ match last with
                         | None => True
                         | Some l => 2 # 10 <= time b - l
                         end) (keptBeats last beats).
Proof.
  induction beats as [ | b rest IH ]; intro last.
  - split; constructor.
  - assert (Hkeep :
      match last with None => True | Some l => 2 # 10 <= time b - l end ->
      ForallOrdPairs (fun a c => 2 # 10 <= time c - time a)
        (b :: keptBeats (Some (time b)) rest)
      /\ Forall (fun c => In c (b :: rest)
                          /\ match last with
                             | None => True
                             | Some l => 2 # 10 <= time c - l
                             end) (b :: keptBeats (Some (time b)) rest)).
    { intro Hb. destruct (IH (Some (time b))) as [Hp Hf]. split.
      - constructor; [ | exact Hp ].
        revert Hf. apply Forall_impl. intros c [_ Hc]. exact Hc.
      - constructor; [ split; [ now left | exact Hb ] | ].
        revert Hf. apply Forall_impl. intros c [Hin Hc].
        split; [ now right | ].
        destruct last as [l | ]; [ lra | exact I ]. }
    destruct last as [l | ]; cbn [keptBeats].
    + destruct (Js.geb (time b - l) (2 # 10)) eqn:E.
      * apply Hkeep. now apply geb_true.
      * destruct (IH (Some l)) as [Hp Hf]. split; [ exact Hp | ].
        revert Hf. apply Forall_impl. intros c [Hin Hc].
        split; [ now right | exact Hc ].
    + now apply Hkeep.
Qed.

Lemma pairs_map {A B : Type} (f : A -> B) (R : B -> B -> Prop) l :
  ForallOrdPairs (fun a b => R (f a) (f b)) l -> ForallOrdPairs R (map f l).
Proof.
  induction 1 as [ | a l Ha Hl IH ]; simpl; constructor; [ | exact IH ].
  apply Forall_map. exact Ha.
Qed.

(** X13.  The plan [preplanObstacles] makes, whatever was planned before:
    its beat times increase, any two at least 0.2 s apart; every entry is
    that of a beat of the map, at [spawnDistance + speed * time], with the
    beat's intensity and not yet spawned; and the first beat of the map is
    always planned. *)
Theorem preplan_plan_is_spaced speed beats g :
  let plan := plannedObstacles (preplanObstacles speed beats g) in
  ForallOrdPairs (fun e e' => 2 # 10 <= fst e' - fst e) plan
  /\ Forall (fun e => exists b,
               In b beats /\ e = plannedFor speed (spawnDistance g) b) plan
  /\ (forall b rest, beats = b :: rest ->
        exists plan', plan = plannedFor speed (spawnDistance g) b :: plan').
Proof.
  intro plan. subst plan. rewrite preplan_entries.
  destruct (kept_spaced beats None) as [Hp Hf]. split; [ | split ].
  - apply pairs_map. exact Hp.
  - apply Forall_map. revert Hf. apply Forall_impl. intros b [Hb _].
    exists b. auto.
  - intros b rest ->. cbn [keptBeats map]. eexists. reflexivity.
Qed.

Lemma kept_chain gap beats : forall last,
  2 # 10 <= gap ->
  GapChain gap beats ->
  match last, beats with
  | Some l, b :: _ => 2 # 10 <= time b - l
  | _, _ => True
  end ->
  keptBeats last beats = beats.
Proof.
  intros last Hgap Hc. revert last.
  induction Hc as [ | b | a b l Hab Hl IH ]; intros last Hlast.
  - reflexivity.
  - destruct last as [l | ]; cbn [keptBeats]; [ | reflexivity ].
    apply geb_true in Hlast. now rewrite Hlast.
  - assert (E : keptBeats (Some (time a)) (b :: l) = b :: l).
    { apply IH. lra. }
    destruct last as [l0 | ]; cbn [keptBeats].
    + apply geb_true in Hlast. rewrite Hlast.
      cbn [keptBeats] in E. now rewrite E.
    + cbn [keptBeats] in E. now rewrite E.
Qed.

(** X14.  When [minBeatInterval] is at least 200 ms, every beat of a map the
    analysis generates gets a planned obstacle: the plan is one entry per
    beat, in the order of the map. *)
Theorem generated_map_fully_planned env m B m' speed g :
  200 <= minBeatInterval (beatParams m) ->
  analyzeFullTrack env m = (Fulfilled B, m') ->
  plannedObstacles (preplanObstacles speed B g)
  = map (plannedFor speed (spawnDistance g)) B.
Proof.
  intros Hmin H. rewrite preplan_entries. f_equal.
  assert (Hpos : 0 < minBeatInterval (beatParams m)) by lra.
  apply (kept_chain (minBeatIntervalSec (beatParams m))).
  - unfold minBeatIntervalSec, Qdiv. change (/ 1000) with (1 # 1000). lra.
  - exact (analysis_chain _ _ _ _ Hpos H).
  - exact I.
Qed.

Lemma generated_map_fully_planned_witness :
  200 <= minBeatInterval (beatParams demoManager)
  /\ analyzeFullTrack demoBrowser demoManager
     = (Fulfilled demoBeatMap, snd (analyzeFullTrack demoBrowser demoManager))
  /\ plannedObstacles (preplanObstacles 10 demoBeatMap newLevelGenerator)
     = map (plannedFor 10 (spawnDistance newLevelGenerator)) demoBeatMap.
Proof.
  split; [ discriminate | ]. split; [ vm_compute; reflexivity | ].
  apply (generated_map_fully_planned demoBrowser demoManager demoBeatMap
           (snd (analyzeFullTrack demoBrowser demoManager))).
  - discriminate.
  - vm_compute. reflexivity.
Defined.

(** ** X15: the look-ahead pass spawns at most one obstacle *)

Lemma farFromLast_self p g :
  lastObstaclePosition g = p -> 0 < minObstacleDistance g ->
  farFromLast p g = false.
Proof.
  intros Hl Hpos. unfold farFromLast. rewrite Hl.
  destruct (Js.geb (Js.abs (p - p)) (minObstacleDistance g)) eqn:E;
    [ | reflexivity ].
  apply geb_true in E. unfold Js.abs in E.
  assert (Hz : p - p == 0) by ring.
  rewrite Hz in E. simpl in E. lra.
Qed.

Lemma updatePlanned_keeps now playerX entries : forall g,
  let g' := snd (updatePlanned now playerX entries g) in
  minObstacleDistance g' = minObstacleDistance g
  /\ spawnDistance g' = spawnDistance g
  /\ despawnDistance g' = despawnDistance g
  /\ plannedObstacles g' = plannedObstacles g
  /\ exists fresh,
       obstacleQueue g' = obstacleQueue g ++ fresh
       /\ scene g' = scene g ++ map SceneAdd fresh.
Proof.
  induction entries as [ | [beatTime o] rest IH ]; intro g; simpl.
  - repeat split. exists []. now rewrite !app_nil_r.
  - destruct (negb (spawned o) && _ && farFromLast _ g).
    + specialize (IH (spawnObstacle (playerX + spawnDistance g)
                        (plannedIntensity o) g)).
      destruct (updatePlanned now playerX rest _) as [rest' g2].
      simpl in IH. destruct IH as (H1 & H2 & H3 & H4 & fresh & H5 & H6).
      simpl. repeat split; try assumption.
      exists (mkObstacle (playerX + spawnDistance g) (plannedIntensity o)
                :: fresh).
      unfold Js.push in H5, H6. rewrite <- app_assoc in H5, H6. auto.
    + specialize (IH g).
      destruct (updatePlanned now playerX rest g) as [rest' g2]. exact IH.
Qed.

Lemma updatePlanned_after_spawn now playerX entries : forall g,
  lastObstaclePosition g = playerX + spawnDistance g ->
  0 < minObstacleDistance g ->
  snd (updatePlanned now playerX entries g) = g.
Proof.
  induction entries as [ | [beatTime o] rest IH ]; intros g Hl Hpos; simpl;
    [ reflexivity | ].
  rewrite (farFromLast_self _ g Hl Hpos), andb_false_r.
  specialize (IH g Hl Hpos).
  destruct (updatePlanned now playerX rest g). exact IH.
Qed.

Lemma updatePlanned_one_spawn now playerX entries : forall g,
  0 < minObstacleDistance g ->
  let g' := snd (updatePlanned now playerX entries g) in
  g' = g
  \/ (farFromLast (playerX + spawnDistance g) g = true
      /\ exists i, g' = spawnObstacle (playerX + spawnDistance g) i g).
Proof.
  induction entries as [ | [beatTime o] rest IH ]; intros g Hpos; simpl;
    [ now left | ].
  destruct (negb (spawned o) && _ && farFromLast _ g) eqn:E.
  - right. apply andb_true_iff in E. destruct E as [_ Hfar].
    split; [ exact Hfar | ]. exists (plannedIntensity o).
    pose proof (updatePlanned_after_spawn now playerX rest
                  (spawnObstacle (playerX + spawnDistance g)
                     (plannedIntensity o) g) eq_refl Hpos) as Hs.
    destruct (updatePlanned now playerX rest _). exact Hs.
  - specialize (IH g Hpos).
    destruct (updatePlanned now playerX rest g). exact IH.
Qed.

(** X15.  One look-ahead pass spawns at most one obstacle, however many
    planned beats are in the window: all would go to the same position,
    [playerX + spawnDistance], and after the first spawn that position is
    at distance 0 from the last obstacle.  When one is spawned the position
    was far enough from the last obstacle's. *)
Theorem update_spawns_at_most_one now playerX g :
  0 < minObstacleDistance g ->
  let g' := update now playerX g in
  (spawnPositions (scene g') = spawnPositions (scene g)
   /\ lastObstaclePosition g' = lastObstaclePosition g)
  \/ (spawnPositions (scene g')
      = spawnPositions (scene g) ++ [playerX + spawnDistance g]
      /\ lastObstaclePosition g' = playerX + spawnDistance g
      /\ minObstacleDistance g
         <= Js.abs (playerX + spawnDistance g - lastObstaclePosition g)).
Proof.
  intros Hpos g'. subst g'. unfold update.
  pose proof (updatePlanned_one_spawn now playerX (plannedObstacles g) g Hpos)
    as H.
  destruct (updatePlanned now playerX (plannedObstacles g) g) as [entries g1].
  cbn [snd] in H. unfold despawn, setPlanned.
  cbn [scene lastObstaclePosition obstacleQueue despawnDistance].
  rewrite spawnPositions_app, spawnPositions_removes, app_nil_r.
  destruct H as [ -> | (Hfar & i & ->) ]; [ left; split; reflexivity | ].
  right. unfold spawnObstacle, Js.push. cbn [scene lastObstaclePosition].
  rewrite spawnPositions_app. cbn [spawnPositions positionX].
  repeat split. unfold farFromLast in Hfar. now apply geb_true.
Qed.

Lemma update_spawns_at_most_one_witness :
  0 < minObstacleDistance crowdedSession
  /\ let g' := update 1 10 crowdedSession in
     (spawnPositions (scene g') = spawnPositions (scene crowdedSession)
      /\ lastObstaclePosition g' = lastObstaclePosition crowdedSession)
     \/ (spawnPositions (scene g')
         = spawnPositions (scene crowdedSession)
           ++ [10 + spawnDistance crowdedSession]
         /\ lastObstaclePosition g' = 10 + spawnDistance crowdedSession
         /\ minObstacleDistance crowdedSession
            <= Js.abs (10 + spawnDistance crowdedSession
                       - lastObstaclePosition crowdedSession)).
Proof.
  split; [ reflexivity | ].
  apply (update_spawns_at_most_one 1 10 crowdedSession). reflexivity.
Defined.

(** ** X16: what a frame leaves in the queue *)

(** X16.  After [update], no obstacle of the queue is behind the despawn
    line [playerX + despawnDistance], and every obstacle that was in the
    queue and is not behind that line is still in it. *)
Theorem update_drops_only_obstacles_behind now playerX g :
  let g' := update now playerX g in
  Forall (fun o => playerX + despawnDistance g <= positionX o)
    (obstacleQueue g')
  /\ forall o, In o (obstacleQueue g) ->
       playerX + despawnDistance g <= positionX o ->
       In o (obstacleQueue g').
Proof.
  intro g'. subst g'. unfold update.
  pose proof (updatePlanned_keeps now playerX (plannedObstacles g) g) as H.
  destruct (updatePlanned now playerX (plannedObstacles g) g) as [entries g1].
  cbn [snd] in H. destruct H as (_ & _ & Hd & _ & fresh & Hq & _).
  unfold despawn, setPlanned. cbn [obstacleQueue despawnDistance].
  rewrite Hd, Hq. split.
  - apply Forall_forall. intros o Ho. apply filter_In in Ho.
    destruct Ho as [_ Ho]. apply negb_true_iff in Ho.
    unfold Js.ltb in Ho. apply negb_false_iff in Ho.
    now apply Qle_bool_iff.
  - intros o Ho Hfront. apply filter_In. split.
    + apply in_or_app. now left.
    + apply negb_true_iff. unfold Js.ltb. apply negb_false_iff.
      now apply Qle_bool_iff.
Qed.

(** ** X17: the plan is only ever marked *)

Lemma marked_refl pl : Forall2 sameEntryMarked pl pl.
Proof.
  induction pl; constructor; [ | assumption ].
  repeat split; auto.
Qed.

Lemma marked_trans pl1 : forall pl2 pl3,
  Forall2 sameEntryMarked pl1 pl2 -> Forall2 sameEntryMarked pl2 pl3 ->
  Forall2 sameEntryMarked pl1 pl3.
Proof.
  induction pl1 as [ | e pl1 IH ]; intros pl2 pl3 H12 H23;
    inversion H12; subst; inversion H23; subst; constructor.
  - match goal with
    | H1 : sameEntryMarked e ?y, H2 : sameEntryMarked ?y ?z |- _ =>
        destruct H1 as (A1 & A2 & A3 & A4);
        destruct H2 as (B1 & B2 & B3 & B4)
    end.
    repeat split; try congruence. auto.
  - eapply IH; eassumption.
Qed.

Lemma updatePlanned_marks now playerX entries : forall g,
  Forall2 sameEntryMarked entries (fst (updatePlanned now playerX entries g)).
Proof.
  induction entries as [ | [beatTime o] rest IH ]; intro g; simpl;
    [ constructor | ].
  destruct (negb (spawned o) && _ && farFromLast _ g).
  - specialize (IH (spawnObstacle (playerX + spawnDistance g)
                      (plannedIntensity o) g)).
    destruct (updatePlanned now playerX rest _) as [rest' g2].
    constructor; [ repeat split | exact IH ].
  - specialize (IH g).
    destruct (updatePlanned now playerX rest g) as [rest' g2].
    constructor; [ repeat split; auto | exact IH ].
Qed.

(** X17.  During a session the plan keeps its entries, in order, each with
    its beat time, position and intensity: a frame or a beat can only mark
    an entry as spawned, and an entry once marked stays marked. *)
Theorem session_only_marks_plan ops g :
  Forall2 sameEntryMarked (plannedObstacles g)
    (plannedObstacles (levelRun ops g)).
Proof.
  revert g. induction ops as [ | op ops IH ]; intro g; [ apply marked_refl | ].
  cbn [levelRun fold_left]. fold (levelRun ops (levelStep g op)).
  apply (marked_trans _ (plannedObstacles (levelStep g op)));
    [ | apply IH ].
  destruct op as [ i p | now playerX ]; cbn [levelStep].
  - unfold generateObstacleOnBeat.
    destruct (farFromLast _ g); apply marked_refl.
  - unfold update.
    pose proof (updatePlanned_marks now playerX (plannedObstacles g) g) as H.
    destruct (updatePlanned now playerX (plannedObstacles g) g)
      as [entries g1].
    exact H.
Qed.

(** ** X18: the queue and the scene agree *)

Lemma sceneAdded_app c1 c2 :
  sceneAdded (c1 ++ c2) = sceneAdded c1 ++ sceneAdded c2.
Proof. induction c1 as [ | [ o | o ] c1 IH ]; simpl; congruence. Qed.

Lemma sceneRemoved_app c1 c2 :
  sceneRemoved (c1 ++ c2) = sceneRemoved c1 ++ sceneRemoved c2.
Proof. induction c1 as [ | [ o | o ] c1 IH ]; simpl; congruence. Qed.

Lemma sceneAdded_adds l : sceneAdded (map SceneAdd l) = l.
Proof. induction l; simpl; congruence. Qed.

Lemma sceneAdded_removes l : sceneAdded (map SceneRemove l) = [].
Proof. induction l; simpl; auto. Qed.

Lemma sceneRemoved_adds l : sceneRemoved (map SceneAdd l) = [].
Proof. induction l; simpl; auto. Qed.

Lemma sceneRemoved_removes l : sceneRemoved (map SceneRemove l) = l.
Proof. induction l; simpl; congruence. Qed.

Lemma filter_split (f : Obstacle -> bool) l :
  Permutation l (filter (fun o => negb (f o)) l ++ filter f l).
Proof.
  induction l as [ | o l IH ]; simpl; [ constructor | ].
  destruct (f o); simpl.
  - apply Permutation_cons_app. exact IH.
  - constructor. exact IH.
Qed.

Lemma spawn_agrees pos i g : SceneAgrees g -> SceneAgrees (spawnObstacle pos i g).
Proof.
  unfold SceneAgrees, spawnObstacle, Js.push. cbn [scene obstacleQueue].
  intro H. rewrite sceneAdded_app, sceneRemoved_app. cbn [sceneAdded
    sceneRemoved]. rewrite app_nil_r.
  rewrite H. rewrite <- !app_assoc. apply Permutation_app_head.
  apply Permutation_app_comm.
Qed.

Lemma updatePlanned_agrees now playerX entries : forall g,
  SceneAgrees g -> SceneAgrees (snd (updatePlanned now playerX entries g)).
Proof.
  induction entries as [ | [beatTime o] rest IH ]; intros g H; simpl;
    [ exact H | ].
  destruct (negb (spawned o) && _ && farFromLast _ g).
  - specialize (IH _ (spawn_agrees (playerX + spawnDistance g)
                        (plannedIntensity o) g H)).
    destruct (updatePlanned now playerX rest _). exact IH.
  - specialize (IH g H).
    destruct (updatePlanned now playerX rest g). exact IH.
Qed.

Lemma pageStep_agrees g op : SceneAgrees g -> SceneAgrees (pageStep g op).
Proof.
  intro H. destruct op as [ [ i p | now playerX ] | speed beats | ];
    cbn [pageStep levelStep].
  - unfold generateObstacleOnBeat.
    destruct (farFromLast _ g); [ now apply spawn_agrees | exact H ].
  - unfold update.
    pose proof (updatePlanned_agrees now playerX (plannedObstacles g) g H)
      as H1.
    destruct (updatePlanned now playerX (plannedObstacles g) g)
      as [entries g1].
    cbn [snd] in H1. unfold SceneAgrees, despawn, setPlanned in *.
    cbn [scene obstacleQueue despawnDistance].
    rewrite sceneAdded_app, sceneRemoved_app, sceneAdded_removes,
      sceneRemoved_removes, app_nil_r.
    rewrite H1.
    set (behind := fun o => Js.ltb (positionX o) (playerX + despawnDistance g1)).
    transitivity ((filter (fun o => negb (behind o)) (obstacleQueue g1)
                   ++ filter behind (obstacleQueue g1))
                  ++ sceneRemoved (scene g1)).
    + apply Permutation_app_tail. apply filter_split.
    + rewrite <- app_assoc. apply Permutation_app_head.
      apply Permutation_app_comm.
  - exact H.
  - unfold SceneAgrees, reset in *. cbn [scene obstacleQueue].
    rewrite sceneAdded_app, sceneRemoved_app, sceneAdded_removes,
      sceneRemoved_removes, app_nil_r. cbn [app].
    rewrite H. apply Permutation_app_comm.
Qed.

(** X18.  Over the life of a page, through sessions, planning and resets,
    the queue and the scene agree: every obstacle the scene was asked to
    add is either still in the queue or was removed from the scene, once
    each; none is dropped from the queue and left in the scene. *)
Theorem queue_and_scene_agree ops :
  SceneAgrees (pageRun ops newLevelGenerator)
  /\ obstacleQueue (reset (pageRun ops newLevelGenerator)) = []
  /\ Permutation
       (sceneAdded (scene (reset (pageRun ops newLevelGenerator))))
       (sceneRemoved (scene (reset (pageRun ops newLevelGenerator)))).
Proof.
  assert (H : forall l g, SceneAgrees g -> SceneAgrees (pageRun l g)).
  { induction l as [ | op l IH ]; intros g Hg; [ exact Hg | ].
    apply IH. now apply pageStep_agrees. }
  assert (H0 : SceneAgrees newLevelGenerator) by constructor.
  split; [ now apply H | ]. split; [ reflexivity | ].
  exact (pageStep_agrees _ ResetLevel (H ops _ H0)).
Qed.

(** * Properties of the player *)

Lemma max_left (a b : Q) : a <= Js.max a b.
Proof.
  unfold Js.max. destruct (Qle_bool a b) eqn:E.
  - now apply Qle_bool_iff.
  - apply Qle_refl.
Qed.

(** ** X19: vertical speed *)

Lemma playerUpdate_inv speed dt p :
  0 <= dt -> PlayerInv p -> PlayerInv (playerUpdate speed dt p).
Proof.
  intros Hdt ((Hg & Hb & Hm & Hh & Hj & Hr) & Hgr & Hlo & Hhi).
  unfold PlayerInv, DefaultPhysics, playerUpdate.
  cbn [gravity baseJumpForce maxJumpForce maxJumpHoldTime minJumpVelocity
       rotationSpeed isGrounded isJumping velocityY].
  rewrite Hg, Hb, Hm, Hh.
  set (held := isJumping p && (isSpaceDown p || isMouseDown p)).
  set (heldTime := if held then jumpHeldTime p + dt else jumpHeldTime p).
  set (progress := Js.min (heldTime / (2 # 10)) 1).
  set (force := 10 + (14 - 10) * progress).
  assert (Hp : progress <= 1) by apply min_upper.
  assert (Hf : force <= 14) by (unfold force; lra).
  set (lifted := if held && Qle_bool heldTime (2 # 10)
                 then Js.max (velocityY p) force else velocityY p).
  assert (Hl : -25 <= lifted /\ lifted <= 14).
  { unfold lifted. destruct (held && Qle_bool heldTime (2 # 10)).
    - split; [ | now apply max_upper ].
      apply Qle_trans with (velocityY p); [ exact Hlo | apply max_left ].
    - now split. }
  set (mult := if negb (isJumping p)
                  || (negb (isSpaceDown p) && negb (isMouseDown p))
               then 15 # 10 else 1).
  assert (Hmult : 0 <= mult).
  { unfold mult.
    destruct (negb (isJumping p)
              || (negb (isSpaceDown p) && negb (isMouseDown p)));
      discriminate. }
  set (falling := if negb (isGrounded p)
                  then Js.max (lifted + -35 * mult * dt) (-25) else lifted).
  assert (Hfall : -25 <= falling /\ falling <= 14).
  { unfold falling. destruct (negb (isGrounded p)); [ | exact Hl ].
    split; [ apply max_lower | ].
    apply max_upper; [ | discriminate ].
    assert (0 <= mult * dt) by (apply Qmult_le_0_compat; assumption).
    lra. }
  split; [ repeat split; assumption | ].
  destruct (Qle_bool (meshY p + falling * dt) 1).
  - split; [ auto | split; discriminate ].
  - split; [ | exact Hfall ].
    intro Hgrounded. destruct (Hgr Hgrounded) as [Hnj Hv].
    split; [ exact Hnj | ].
    unfold falling. rewrite Hgrounded. cbn [negb].
    unfold lifted, held. rewrite Hnj. cbn [andb]. exact Hv.
Qed.

Lemma jump_inv nowMs p : PlayerInv p -> PlayerInv (jump nowMs p).
Proof.
  intro Hp. unfold jump. destruct (isGrounded p) eqn:E; [ | exact Hp ].
  destruct Hp as ((Hg & Hb & Hm & Hh & Hj & Hr) & Hgr & Hlo & Hhi).
  unfold PlayerInv, DefaultPhysics. cbn. rewrite Hj.
  repeat split; try assumption; discriminate.
Qed.

Lemma setInputs_inv space mouse jumping p :
  (jumping = true -> isGrounded p = false) ->
  PlayerInv p -> PlayerInv (setInputs space mouse jumping p).
Proof.
  intros Hjump ((Hg & Hb & Hm & Hh & Hj & Hr) & Hgr & Hlo & Hhi).
  unfold PlayerInv, DefaultPhysics, setInputs. cbn.
  repeat split; try assumption.
  - destruct jumping; [ | reflexivity ].
    rewrite (Hjump eq_refl) in H. discriminate.
  - now apply Hgr.
Qed.

Lemma playerStep_inv p e :
  0 <= frameTimeOf e -> PlayerInv p -> PlayerInv (playerStep p e).
Proof.
  intros Hdt Hp.
  assert (Hkeep : isJumping p = true -> isGrounded p = false).
  { intro Hj. destruct Hp as (_ & Hgr & _).
    destruct (isGrounded p); [ | reflexivity ].
    destruct (Hgr eq_refl) as [Hn _]. congruence. }
  destruct e as [ speed dt | space nowMs | space | nowMs | ];
    cbn [playerStep].
  - now apply playerUpdate_inv.
  - unfold onKeyDown. destruct (space && negb (isSpaceDown p));
      [ | exact Hp ].
    apply jump_inv. now apply setInputs_inv.
  - unfold onKeyUp. destruct space; [ | exact Hp ].
    apply setInputs_inv; [ discriminate | exact Hp ].
  - unfold onMouseDown. destruct (negb (isMouseDown p)); [ | exact Hp ].
    apply jump_inv. now apply setInputs_inv.
  - unfold onMouseUp. apply setInputs_inv; [ discriminate | exact Hp ].
Qed.

(** X19.  Through any frames of non-negative duration and any inputs, from
    a new player: the vertical speed stays between -25, the fall limit, and
    14, the greatest jump force, and a player on the ground is at rest and
    not jumping. *)
Theorem player_vertical_speed_bounded events :
  Forall (fun e => 0 <= frameTimeOf e) events ->
  let p := playerRun events newPlayer in
  -25 <= velocityY p /\ velocityY p <= 14
  /\ (isGrounded p = true -> isJumping p = false /\ velocityY p = 0).
Proof.
  intros Hev p.
  assert (Hrun : forall l p0,
    PlayerInv p0 -> Forall (fun e => 0 <= frameTimeOf e) l ->
    PlayerInv (playerRun l p0)).
  { induction l as [ | e l IH ]; intros p0 H0 Hl; [ exact H0 | ].
    inversion Hl as [ | ? ? He Hrest ]; subst.
    apply IH; [ now apply playerStep_inv | exact Hrest ]. }
  assert (H0 : PlayerInv newPlayer) by (repeat split; discriminate).
  destruct (Hrun events newPlayer H0 Hev) as (_ & Hgr & Hlo & Hhi). auto.
Qed.

Lemma player_vertical_speed_bounded_witness :
  Forall (fun e => 0 <= frameTimeOf e) demoPlay
  /\ -25 <= velocityY (playerRun demoPlay newPlayer)
  /\ velocityY (playerRun demoPlay newPlayer) <= 14.
Proof.
  assert (H : Forall (fun e => 0 <= frameTimeOf e) demoPlay)
    by (repeat constructor; discriminate).
  split; [ exact H | ].
  destruct (player_vertical_speed_bounded demoPlay H) as (H1 & H2 & _).
  split; assumption.
Defined.

(** ** X20: forward motion *)

Lemma sum_from (l : list Q) : forall a, fold_left Qplus l a == a + Js.sum l.
Proof.
  unfold Js.sum. induction l as [ | x l IH ]; intro a; simpl.
  - ring.
  - rewrite (IH (a + x)), (IH (0 + x)). ring.
Qed.

(** X20.  The player's forward position after any frames and inputs is
    where it began plus speed times duration summed over the frames:
    jumping, falling and landing do not change the forward motion. *)
Theorem player_forward_position events p :
  meshX (playerRun events p) == meshX p + Js.sum (map advanceOf events).
Proof.
  revert p. induction events as [ | e events IH ]; intro p.
  - unfold Js.sum. simpl. ring.
  - cbn [playerRun fold_left map]. fold (playerRun events (playerStep p e)).
    rewrite IH. unfold Js.sum at 2. cbn [fold_left].
    rewrite (sum_from _ (0 + advanceOf e)).
    assert (Hx : meshX (playerStep p e) == meshX p + advanceOf e).
    { destruct e as [ speed dt | space nowMs | space | nowMs | ];
        cbn [playerStep advanceOf].
      - reflexivity.
      - unfold onKeyDown, jump, setInputs.
        destruct (space && negb (isSpaceDown p)); cbn;
          [ destruct (isGrounded p); cbn | ]; ring.
      - unfold onKeyUp, setInputs. destruct space; cbn; ring.
      - unfold onMouseDown, jump, setInputs.
        destruct (negb (isMouseDown p)); cbn;
          [ destruct (isGrounded p); cbn | ]; ring.
      - unfold onMouseUp, setInputs. cbn. ring. }
    rewrite Hx. ring.
Qed.

(** ** X21: inputs in the air *)

(** X21.  While the player is off the ground no key or mouse event starts
    a jump: the vertical speed, the position, the held time and the turn
    the player is to make are left as they are, and the player stays off
    the ground. *)
Theorem airborne_inputs_do_not_jump p e :
  isGrounded p = false ->
  match e with
  | Tick _ _ => True
  | _ =>
      let p' := playerStep p e in
      velocityY p' = velocityY p /\ meshX p' = meshX p /\ meshY p' = meshY p
      /\ jumpHeldTime p' = jumpHeldTime p
      /\ targetRotation p' = targetRotation p
      /\ isGrounded p' = false
  end.
Proof.
  intro Hair.
  destruct e as [ speed dt | space nowMs | space | nowMs | ];
    cbn [playerStep]; [ exact I | | | | ].
  - unfold onKeyDown, jump. destruct (space && negb (isSpaceDown p));
      cbn [setInputs isGrounded]; rewrite ?Hair; cbn; auto 10.
  - unfold onKeyUp. destruct space; cbn; auto 10.
  - unfold onMouseDown, jump. destruct (negb (isMouseDown p));
      cbn [setInputs isGrounded]; rewrite ?Hair; cbn; auto 10.
  - unfold onMouseUp. cbn. auto 10.
Qed.

Lemma airborne_inputs_do_not_jump_witness :
  isGrounded airbornePlayer = false
  /\ velocityY (playerStep airbornePlayer (MouseDown 120))
     = velocityY airbornePlayer.
Proof.
  split; [ reflexivity | ].
  apply (airborne_inputs_do_not_jump airbornePlayer (MouseDown 120)).
  reflexivity.
Defined.

(** ** X22: turning *)

(** X22.  A frame turns the player towards its target without passing it:
    the rotation still to make keeps its sign and does not grow, and it is
    made in full when it is no more than [rotationSpeed] times the duration
    of the frame. *)
Theorem player_turn_does_not_overshoot speed dt p :
  0 <= dt ->
  0 <= rotationSpeed p ->
  let p' := playerUpdate speed dt p in
  let remaining := targetRotation p - currentRotation p in
  let remaining' := targetRotation p' - currentRotation p' in
  (0 <= remaining -> 0 <= remaining' /\ remaining' <= remaining)
  /\ (remaining <= 0 -> remaining <= remaining' /\ remaining' <= 0)
  /\ (Js.abs remaining <= rotationSpeed p * dt -> remaining' == 0).
Proof.
  intros Hdt Hr p' remaining remaining'.
  assert (Hstep : 0 <= rotationSpeed p * dt)
    by (apply Qmult_le_0_compat; assumption).
  subst p' remaining remaining'. unfold playerUpdate.
  cbn [targetRotation currentRotation].
  set (r := targetRotation p - currentRotation p).
  set (s := rotationSpeed p * dt) in *.
  destruct (Qeq_bool (currentRotation p) (targetRotation p)) eqn:Eq;
    cbn [negb].
  - apply Qeq_bool_iff in Eq.
    assert (Hz : r == 0) by (unfold r; rewrite Eq; ring).
    fold r. repeat split; intros; lra.
  - destruct (Qle_bool (Js.abs r) s) eqn:Ea.
    + assert (Hz : targetRotation p - targetRotation p == 0) by ring.
      repeat split; intros; lra.
    + assert (Hbig : s < Js.abs r).
      { apply Qnot_le_lt. intro H. apply Qle_bool_iff in H. congruence. }
      unfold Js.abs in Hbig. unfold sign.
      destruct (Js.gtb r 0) eqn:Eg.
      * apply gtb_true in Eg.
        rewrite (Qabs_pos r (Qlt_le_weak _ _ Eg)) in Hbig.
        assert (Hn : targetRotation p - (currentRotation p + 1 * s)
                     == r - s) by (unfold r; ring).
        repeat split; intros; unfold Js.abs in *;
          try rewrite (Qabs_pos r (Qlt_le_weak _ _ Eg)) in *; lra.
      * apply gtb_false in Eg.
        destruct (Js.ltb r 0) eqn:El.
        -- apply ltb_true in El.
           rewrite (Qabs_neg r Eg) in Hbig.
           assert (Hn : targetRotation p - (currentRotation p + -1 * s)
                        == r + s) by (unfold r; ring).
           repeat split; intros; unfold Js.abs in *;
             try rewrite (Qabs_neg r Eg) in *; lra.
        -- exfalso. unfold Js.ltb in El. apply negb_false_iff in El.
           apply Qle_bool_iff in El.
           assert (Hz : r == 0) by lra.
           rewrite Hz in Hbig. simpl in Hbig. lra.
Qed.

Lemma player_turn_does_not_overshoot_witness :
  0 <= 1 # 60
  /\ 0 <= rotationSpeed airbornePlayer
  /\ (targetRotation airbornePlayer - currentRotation airbornePlayer <= 0 ->
      targetRotation airbornePlayer - currentRotation airbornePlayer
      <= targetRotation (playerUpdate 10 (1 # 60) airbornePlayer)
         - currentRotation (playerUpdate 10 (1 # 60) airbornePlayer)
      /\ targetRotation (playerUpdate 10 (1 # 60) airbornePlayer)
         - currentRotation (playerUpdate 10 (1 # 60) airbornePlayer) <= 0).
Proof.
  split; [ discriminate | ]. split; [ discriminate | ].
  apply (player_turn_does_not_overshoot 10 (1 # 60) airbornePlayer);
    discriminate.
Defined.
